(** * Data transforms of the dashboard assignments

    A shallow embedding of the numeric and categorical transforms found in
    the chart code of the repository:

    - [Sankey]: the node list, the index map and the link matrix built by
      [displaySankey] (Homework2/ashih/main.js);
    - [StackedBar]: the grouping and counting of [createStackedBarChart]
      (Homework2/alfranzen/stackedBarChart.js);
    - [Ridgeline]: the kernel density estimate of [createRidgelinePlot];
    - [Histogram]: the binning of [displayHistogram]
      (Homework2/ashih/main.js).

    JavaScript strings are [string], plain objects used as dictionaries are
    [gmap string _], arrays are lists.  Numbers that only count are [nat];
    measured numbers are exact rationals [Qc] (rounding, infinities and NaN
    of IEEE doubles are outside the model). *)

From Stdlib Require Import QArith Qcanon Qround Qabs Qcabs Lqa OrdersEx.
From stdpp Require Import gmap strings list fin_maps sorting.

Close Scope Q_scope.
Close Scope Qc_scope.
Local Open Scope string_scope.
Local Open Scope list_scope.
Local Open Scope nat_scope.

(** Counting with truth values: 1 for [true], 0 for [false]. *)
Definition ind (b : bool) : nat := if b then 1 else 0.

(** A whole number, and a count, as a number of the script. *)
Definition num (z : Z) : Qc := Q2Qc (inject_Z z).
Definition ofNat (n : nat) : Qc := num (Z.of_nat n).

(** ** Built-ins of the language used by several charts *)
Module JS.

(** [Array.from(new Set(l))] and [[...new Set(l)]]: a Set keeps the first
    occurrence of every value, in insertion order. *)
Definition addNew `{EqDecision A} (acc : list A) (x : A) : list A :=
  if decide (x ∈ acc) then acc else acc ++ [x].

Definition setFrom `{EqDecision A} (l : list A) : list A :=
  fold_left addNew l [].

(** The same order, written by recursion on the input: the head, then the
    first-seen order of the rest without the head. *)
Fixpoint firstSeen `{EqDecision A} (l : list A) : list A :=
  match l with
  | [] => []
  | x :: l' => x :: filter (λ y, y ≠ x) (firstSeen l')
  end.

(** [Object.fromEntries(entries)]: properties are defined in order, a later
    entry for the same key replaces the earlier one. *)
Definition fromEntries {V} (entries : list (string * V)) : gmap string V :=
  fold_left (λ m kv, <[kv.1 := kv.2]> m) entries ∅.

(** [Array.prototype.sort(cmp)], which is stable: an element stays behind
    the elements before it unless [cmp] puts it in front of them.  For a
    comparison that orders the elements the result is the one of inserting
    each element into the sorted rest, in front of the first element it is
    not behind. *)
Fixpoint sortInsert {A} (cmp : A → A → Z) (x : A) (s : list A) : list A :=
  match s with
  | [] => [x]
  | y :: s' => if (cmp x y <=? 0)%Z then x :: y :: s'
               else y :: sortInsert cmp x s'
  end.

Fixpoint sort {A} (cmp : A → A → Z) (l : list A) : list A :=
  match l with
  | [] => []
  | x :: l' => sortInsert cmp x (sort cmp l')
  end.

End JS.

(** ** The Sankey diagram of [displaySankey] *)
Module Sankey.

(** One element of [parallelData]. *)
Record row := Row {
  salaryBin : string;
  experienceLevel : string;
  workType : string
}.

(** An element of [links]. *)
Record link := Link {
  source : nat;
  target : nat;
  value : nat
}.

Definition salaryBins (data : list row) : list string :=
  JS.setFrom (salaryBin <$> data).
Definition experienceLevels (data : list row) : list string :=
  JS.setFrom (experienceLevel <$> data).
Definition workTypes (data : list row) : list string :=
  JS.setFrom (workType <$> data).

(** [nodes]: the ids, in the order of the array of [{ id }] objects. *)
Definition nodes (data : list row) : list string :=
  salaryBins data ++ experienceLevels data ++ workTypes data.

(** [nodeMap = Object.fromEntries(nodes.map(({ id }, index) => [id, index]))] *)
Definition nodeMapOf (ids : list string) : gmap string nat :=
  JS.fromEntries (imap (λ index id, (id, index)) ids).

Definition nodeMap (data : list row) : gmap string nat :=
  nodeMapOf (nodes data).

(** [Array.from({ length: n }, () => Array(n).fill(0))] *)
Definition emptyMatrix (n : nat) : list (list nat) :=
  replicate n (replicate n 0).

(** [linkMatrix[i][j] += 1].  [None] stands for an index outside the matrix,
    where the script would not add to a number. *)
Definition bump (i j : nat) (m : list (list nat)) : option (list (list nat)) :=
  r ← m !! i; c ← r !! j; Some (<[i := <[j := c + 1]> r]> m).

(** The body of [data.forEach]; [None] stands for a value that is not a key
    of [nodeMap]. *)
Definition addRow (nm : gmap string nat) (m : list (list nat)) (r : row)
    : option (list (list nat)) :=
  a ← nm !! salaryBin r;
  b ← nm !! experienceLevel r;
  c ← nm !! workType r;
  m1 ← bump a b m;
  bump b c m1.

Fixpoint forEach (nm : gmap string nat) (data : list row)
    (m : list (list nat)) : option (list (list nat)) :=
  match data with
  | [] => Some m
  | r :: data' => m' ← addRow nm m r; forEach nm data' m'
  end.

Definition linkMatrix (data : list row) : option (list (list nat)) :=
  forEach (nodeMap data) data (emptyMatrix (length (nodes data))).

(** [linkMatrix[i][j]], 0 outside the matrix. *)
Definition cell (m : list (list nat)) (i j : nat) : nat :=
  default 0 (m !! i ≫= (.!! j)).

(** The two nested [for] loops that fill [links], over the index lists
    [srcs] and [tgts]. *)
Definition linksOver (srcs tgts : list nat) (m : list (list nat)) : list link :=
  i ← srcs; j ← tgts;
  if decide (0 < cell m i j) then [Link i j (cell m i j)] else [].

Definition linksOf (n : nat) (m : list (list nat)) : list link :=
  linksOver (seq 0 n) (seq 0 n) m.

(** What [displaySankey] hands to the layout: the node ids and the links. *)
Definition displaySankey (data : list row) : option (list string * list link) :=
  m ← linkMatrix data;
  Some (nodes data, linksOf (length (nodes data)) m).

(** Total weight of the links whose end points satisfy [P]. *)
Definition weight (P : nat → nat → bool) (links : list link) : nat :=
  sum_list_with value (filter (λ l, P (source l) (target l) = true) links).

(** The same total read off the matrix. *)
Definition cellSumOver (P : nat → nat → bool) (srcs tgts : list nat)
    (m : list (list nat)) : nat :=
  sum_list_with
    (λ i, sum_list_with (λ j, if P i j then cell m i j else 0) tgts) srcs.

Definition cellSum (P : nat → nat → bool) (n : nat) (m : list (list nat)) : nat :=
  cellSumOver P (seq 0 n) (seq 0 n) m.

(** An [n] by [n] matrix. *)
Definition square (n : nat) (m : list (list nat)) : Prop :=
  length m = n ∧ Forall (λ r, length r = n) m.

(** The index [nodeMap] gives a value (0 when it has none). *)
Definition idx (nm : gmap string nat) (v : string) : nat :=
  default 0 (nm !! v).

(** What the rows of [data] add to the cells satisfying [P]: each row adds
    one to the cell (salaryBin, experienceLevel) and one to the cell
    (experienceLevel, workType). *)
Definition flow (nm : gmap string nat) (P : nat → nat → bool)
    (data : list row) : nat :=
  sum_list_with
    (λ r, ind (P (idx nm (salaryBin r)) (idx nm (experienceLevel r)))
          + ind (P (idx nm (experienceLevel r)) (idx nm (workType r)))) data.

(** No string is a value of two different stages. *)
Definition noSharedValue (data : list row) : Prop :=
  Forall (λ r1, Forall (λ r2,
    salaryBin r1 ≠ experienceLevel r2 ∧
    salaryBin r1 ≠ workType r2 ∧
    experienceLevel r1 ≠ workType r2) data) data.

(** The number of rows that add to the cell [i], [j]. *)
Definition pairCount (nm : gmap string nat) (data : list row) (i j : nat) : nat :=
  flow nm (λ i' j', bool_decide (i' = i ∧ j' = j)) data.

(** Index ranges of the three stages inside [nodes]. *)
Definition stage1 (data : list row) (i : nat) : bool :=
  bool_decide (i < length (salaryBins data)).
Definition stage2 (data : list row) (i : nat) : bool :=
  bool_decide (length (salaryBins data) ≤ i
               < length (salaryBins data) + length (experienceLevels data)).
Definition stage3 (data : list row) (i : nat) : bool :=
  bool_decide (length (salaryBins data) + length (experienceLevels data) ≤ i
               < length (nodes data)).

(** Three rows to run the construction on. *)
Definition sample : list row :=
  [Row "x" "y" "z"; Row "x" "y" "w"; Row "x" "u" "z"].

End Sankey.

(** ** The rows of the Sankey diagram, made by [displayDashboard] *)
Module Dashboard.
Import Sankey.

(** A record of the salary file, with the fields read for the diagram; the
    numeric fields after their conversion with [+]. *)
Record salaryRecord := SalaryRecord {
  salary_in_usd : Qc;
  experience_level : string;
  remote_ratio : Qc
}.

Definition binSalaries (salary : Qc) : string :=
  if decide (salary < num 50000)%Qc then "< 50k"
  else if decide (num 50000 ≤ salary ∧ salary < num 100000)%Qc then "50k-100k"
  else if decide (num 100000 ≤ salary ∧ salary < num 150000)%Qc then "100k-150k"
  else if decide (num 150000 ≤ salary ∧ salary < num 200000)%Qc then "150k-200k"
  else "200k+".

Definition experienceLevelMap : gmap string string :=
  {[ "SE" := "Senior"; "MI" := "Mid Level"; "EN" := "Entry Level";
     "EX" := "Executive" ]}.

Definition binWorkTypes (remoteRatio : Qc) : string :=
  if decide (remoteRatio ≤ num 33)%Qc then "in-office"
  else if decide (num 33 < remoteRatio ∧ remoteRatio ≤ num 66)%Qc then "hybrid"
  else "remote".

(** One element of [parallelData]; [None] when the experience level is not
    a key of [experienceLevelMap] and the row would have no level. *)
Definition parallelRow (d : salaryRecord) : option row :=
  level ← experienceLevelMap !! experience_level d;
  Some (Row (binSalaries (salary_in_usd d)) level
            (binWorkTypes (remote_ratio d))).

Definition parallelData (salaryData : list salaryRecord) : option (list row) :=
  mapM parallelRow salaryData.

(** Two records to run the dashboard on. *)
Definition salaryFile : list salaryRecord :=
  [SalaryRecord (num 60000) "SE" (num 100);
   SalaryRecord (num 120000) "MI" (num 0)].

End Dashboard.

(** ** The stacked bar chart of [createStackedBarChart] *)
Module StackedBar.

(** A record of the data set, with the two fields the chart reads. *)
Record pokemon := Pokemon {
  Type_1 : string;
  Type_2 : string
}.

(** A property value of an element of [sortedCountsArray]: a count, or the
    name under [primaryType]. *)
Inductive jsval :=
  | Num (n : nat)
  | Str (s : string).

(** [d3.group]: a Map from key to the array of the values with that key.
    The Map keeps its keys in the order of insertion, each array the order
    of the data; it is kept as the list of its entries. *)
Fixpoint groupPush {A} (k : string) (x : A) (groups : list (string * list A))
    : list (string * list A) :=
  match groups with
  | [] => [(k, [x])]
  | (k', g) :: rest =>
      if decide (k' = k) then (k', g ++ [x]) :: rest
      else (k', g) :: groupPush k x rest
  end.

Definition group {A} (key : A → string) (data : list A)
    : list (string * list A) :=
  fold_left (λ groups d, groupPush (key d) d groups) data [].

(** [d3.rollup(data, reduce, key)]: every group replaced by its reduction. *)
Definition rollup {A V} (data : list A) (reduce : list A → V)
    (key : A → string) : list (string * V) :=
  (λ kg, (kg.1, reduce kg.2)) <$> group key data.

Section with_locale.
(** [String.prototype.localeCompare] depends on the locale of the
    browser; the chart is modelled for any such comparison. *)
Variable localeCompare : string → string → Z.

(** [(a, b) => a === "None" ? -1 : b === "None" ? 1 : a.localeCompare(b)] *)
Definition secondaryCmp (a b : string) : Z :=
  if decide (a = "None") then (-1)%Z
  else if decide (b = "None") then 1%Z
  else localeCompare a b.

Definition secondaryTypes (data : list pokemon) : list string :=
  JS.sort secondaryCmp (JS.setFrom (Type_2 <$> data)).

(** The body of [leaves.forEach]: the count of the leaf's secondary type
    grows by one; a leaf whose secondary type has no count in [counts]
    is reported with [console.warn] and left out.  The state is [counts]
    and the leaves reported so far. *)
Definition countLeaf (st : gmap string nat * list pokemon) (leaf : pokemon)
    : gmap string nat * list pokemon :=
  match st.1 !! Type_2 leaf with
  | Some c => (<[Type_2 leaf := c + 1]> st.1, st.2)
  | None => (st.1, st.2 ++ [leaf])
  end.

(** The reducer passed to [d3.rollup].  [counts.total] is a property of
    the same object as the counts of the secondary types. *)
Definition countLeaves (secTypes : list string) (leaves : list pokemon)
    : gmap string nat * list pokemon :=
  let st := fold_left countLeaf leaves
              (JS.fromEntries ((λ secType, (secType, 0)) <$> secTypes), []) in
  (<["total" := length leaves]> st.1, st.2).

(** The entries of the Map [countsByType], in its order. *)
Definition countsByType (data : list pokemon)
    : list (string * gmap string nat) :=
  (λ kv, (kv.1, kv.2.1)) <$>
    rollup data (countLeaves (secondaryTypes data)) Type_1.

(** The leaves reported by [console.warn], in the order of the reports. *)
Definition warned (data : list pokemon) : list pokemon :=
  rollup data (countLeaves (secondaryTypes data)) Type_1 ≫= λ kv, kv.2.2.

(** [a.total] *)
Definition totalOf (counts : gmap string nat) : nat :=
  default 0 (counts !! "total").

(** [([,a], [,b]) => b.total - a.total] *)
Definition byTotal (a b : string * gmap string nat) : Z :=
  (Z.of_nat (totalOf b.2) - Z.of_nat (totalOf a.2))%Z.

(** [({ primaryType, ...counts })]: the properties of [counts] are copied
    after [primaryType] and replace it when they have its name. *)
Definition toObject (e : string * gmap string nat) : gmap string jsval :=
  (Num <$> e.2) ∪ {[ "primaryType" := Str e.1 ]}.

(** The counts of the group of the primary type [k]: the reduction of
    the data with that primary type. *)
Definition countsOf (data : list pokemon) (k : string) : gmap string nat :=
  (countLeaves (secondaryTypes data) (filter (λ d, Type_1 d = k) data)).1.

Definition sortedEntries (data : list pokemon)
    : list (string * gmap string nat) :=
  JS.sort byTotal (countsByType data).

Definition sortedCountsArray (data : list pokemon)
    : list (gmap string jsval) :=
  toObject <$> sortedEntries data.
End with_locale.

(** The parts of a group, read off an element of [sortedCountsArray]. *)
Definition groupKey (g : gmap string jsval) : option jsval :=
  g !! "primaryType".

Definition total (g : gmap string jsval) : nat :=
  match g !! "total" with Some (Num n) => n | _ => 0 end.

(** The count under a secondary type, as the stack layout reads it. *)
Definition subCount (g : gmap string jsval) (secType : string) : nat :=
  match g !! secType with Some (Num n) => n | _ => 0 end.

(** A comparison to run the chart with: by code units. *)
Definition codeUnitCompare (a b : string) : Z :=
  match String.compare a b with Lt => (-1)%Z | Eq => 0%Z | Gt => 1%Z end.

(** Data to run the chart on. *)
Definition fireFireWater : list pokemon :=
  [Pokemon "Fire" "None"; Pokemon "Fire" "Flying"; Pokemon "Water" "None"].

Definition fireTotalNone : list pokemon :=
  [Pokemon "Fire" "total"; Pokemon "Fire" "None"].

Definition fireWater : list pokemon :=
  [Pokemon "Fire" "total"; Pokemon "Water" "None"].

Definition waterFire : list pokemon :=
  [Pokemon "Water" "None"; Pokemon "Fire" "None"].

(** *** The stack layout and the bars *)

(** A segment of a series: [segment[0]], [segment[1]] and the element of
    the data it was computed from, [segment.data]. *)
Record segment := Segment {
  seg0 : nat;
  seg1 : nat;
  segData : gmap string jsval
}.

(** [d3.stack().keys(keys).order(d3.stackOrderNone)
    .offset(d3.stackOffsetNone)] is not among the sources of the
    repository; it is modelled after the library.  The series of a key
    first holds the segment [[0, d[key]]] for every element [d] of the
    data. *)
Definition stackSeries (key : string) (data : list (gmap string jsval))
    : list segment :=
  (λ d, Segment 0 (subCount d key) d) <$> data.

(** The inner loop of the offset, [s1[j][1] += s1[j][0] = s0[j][1]]: a
    segment of [s1] starts where the segment of [s0] ends. *)
Definition offsetOnto (s0 s1 : list segment) : list segment :=
  zip_with (λ a b, Segment (seg1 a) (seg1 b + seg1 a) (segData b)) s0 s1.

(** The outer loop: every series is put onto the one before it. *)
Fixpoint offsetNone (s0 : list segment) (series : list (string * list segment))
    : list (string * list segment) :=
  match series with
  | [] => []
  | (key, s1) :: rest =>
      (key, offsetOnto s0 s1) :: offsetNone (offsetOnto s0 s1) rest
  end.

Definition stack (keys : list string) (data : list (gmap string jsval))
    : list (string * list segment) :=
  match (λ key, (key, stackSeries key data)) <$> keys with
  | [] => []
  | (key, s0) :: rest => (key, s0) :: offsetNone s0 rest
  end.






(** *** The legend *)

Definition legendItemHeight : Z := 15.
Definition legendItemWidth : Z := 60.
Definition numColumns : Z := 2.

(** [Math.ceil(secondaryTypes.length / numColumns)] *)
Definition itemsPerColumn (n : nat) : Z :=
  Qceiling (inject_Z (Z.of_nat n) / inject_Z numColumns)%Q.

(** The translation of the legend item [i] of [n]:
    [columnIndex * legendItemWidth] and [rowIndex * legendItemHeight], with
    [columnIndex = Math.floor(i / itemsPerColumn)] and
    [rowIndex = i % itemsPerColumn]. *)
Definition legendTranslate (n i : nat) : Z * Z :=
  let columnIndex :=
    Qfloor (inject_Z (Z.of_nat i) / inject_Z (itemsPerColumn n))%Q in
  let rowIndex := Z.rem (Z.of_nat i) (itemsPerColumn n) in
  ((columnIndex * legendItemWidth)%Z, (rowIndex * legendItemHeight)%Z).

(** The items appended by [secondaryTypes.forEach((type, i) => ...)], for
    a legend that is shown. *)
Definition legendItems (secTypes : list string) : list (string * (Z * Z)) :=
  imap (λ i type, (type, legendTranslate (length secTypes) i)) secTypes.

End StackedBar.

(** ** The ridgeline plot of [createRidgelinePlot] *)
Module Ridgeline.

(** [d3.mean(V, f)]: the values [f(v)] that are numbers are counted and
    added up in the order of [V]; the result is [sum / count], or
    [undefined] when nothing was counted.  Every [Qc] is a number. *)
Definition meanStep {A} (f : A → Qc) (st : nat * Qc) (v : A) : nat * Qc :=
  (st.1 + 1, (st.2 + f v)%Qc).

Definition mean {A} (V : list A) (f : A → Qc) : option Qc :=
  let st := fold_left (meanStep f) V (0, 0%Qc) in
  if decide (st.1 = 0) then None else Some (st.2 / ofNat st.1)%Qc.

(** [kernelDensityEstimator(kernel, X)(V)]: the array of the pairs
    [[x, d3.mean(V, v => kernel(x - v))]]. *)
Definition kernelDensityEstimator (kernel : Qc → Qc) (X : list Qc)
    (V : list Qc) : list (Qc * option Qc) :=
  (λ x, (x, mean V (λ v, kernel (x - v)%Qc))) <$> X.

(** [kernelEpanechnikov(k)]: the argument is first divided by [k]. *)
Definition kernelEpanechnikov (k : Qc) (v : Qc) : Qc :=
  let v := (v / k)%Qc in
  if decide (Qcabs v ≤ 1)%Qc
  then (Q2Qc (3 # 4) * (1 - v * v) / k)%Qc
  else 0%Qc.

(** The kernel of the spec, [k(u) = 0.75 * (1 - u²)] for [|u| <= 1], else 0. *)
Definition epanechnikov (u : Qc) : Qc :=
  if decide (Qcabs u ≤ 1)%Qc then (Q2Qc (3 # 4) * (1 - u * u))%Qc else 0%Qc.

(** The density of the spec at the query point [x]: the mean over all
    sample values [v] of [kernel((x - v) / bandwidth) / bandwidth]. *)
Definition specDensity (values : list Qc) (kernel : Qc → Qc) (bandwidth : Qc)
    (x : Qc) : Qc :=
  (foldr Qcplus 0 ((λ v, kernel ((x - v) / bandwidth) / bandwidth) <$> values)
   / ofNat (length values))%Qc.

(** How a call ends: it returns, or an error is thrown to the caller. *)
Inductive completion :=
  | Returned
  | Thrown (error : string).

(** What the chart has put out: the lines of [console.warn] and the ridges
    drawn, each with the generation and the points of its curve. *)
Record output := Output {
  console : list string;
  ridges : list (string * list (Qc * Qc))
}.

(** [d3.max(density, p => p[1])]: the largest of the values that are
    numbers, [undefined] when there is none. *)
Definition maxOf (density : list (Qc * option Qc)) : option Qc :=
  fold_left (λ m p,
    match p.2, m with
    | Some y, Some z => if decide (z < y)%Qc then Some y else Some z
    | Some y, None => Some y
    | None, _ => m
    end) density None.

(** [density.filter(p => !isNaN(p[0]) && !isNaN(p[1]))] *)
Definition numericPoints (density : list (Qc * option Qc)) : list (Qc * Qc) :=
  omap (λ p : Qc * option Qc,
          match p.2 with Some y => Some (p.1, y) | None => None end) density.

Definition fewPoints (key : string) : string :=
  "Generation " +:+ key
  +:+ " has less than 2 valid 'Total' data points. Skipping density.".

Definition noMaxDensity (key : string) : string :=
  "Could not calculate valid max density for Generation " +:+ key +:+ ".".

(** The function passed to [.each], for the generation [key]; its totals
    that are numbers, [genDataTotals], are given as they stand after
    [d.values.map(p => p.Total).filter(val => !isNaN(val))].  [kde] is the
    estimator of the chart.  The function has no [throw]: every path ends
    in [Returned]. *)
Definition drawRidge (kde : list Qc → list (Qc * option Qc))
    (key : string) (genDataTotals : list Qc) (out : output)
    : output * completion :=
  if decide (length genDataTotals < 2)
  then (Output (console out ++ [fewPoints key]) (ridges out), Returned)
  else
    let density := kde genDataTotals in
    match maxOf density with
    | Some maxDensity =>
        if decide (maxDensity ≤ 0)%Qc
        then (Output (console out ++ [noMaxDensity key]) (ridges out), Returned)
        else (Output (console out)
                (ridges out ++ [(key, numericPoints density)]), Returned)
    | None => (Output (console out ++ [noMaxDensity key]) (ridges out), Returned)
    end.

(** [selection.each] over [dataByGenArray]: the function is called for every
    generation in turn, until one call throws. *)
Fixpoint drawRidges (kde : list Qc → list (Qc * option Qc))
    (dataByGenArray : list (string * list Qc)) (out : output)
    : output * completion :=
  match dataByGenArray with
  | [] => (out, Returned)
  | d :: rest =>
      match drawRidge kde d.1 d.2 out with
      | (out', Returned) => drawRidges kde rest out'
      | (out', Thrown e) => (out', Thrown e)
      end
  end.

(** [kde] of the chart: the Epanechnikov kernel with bandwidth 20, at the
    ticks [X] of the x scale. *)
Definition kde (X : list Qc) : list Qc → list (Qc * option Qc) :=
  kernelDensityEstimator (kernelEpanechnikov (num 20)) X.

(** Totals and ticks to run the estimator on. *)
Definition sampleTotals : list Qc := [num 500; num 500; num 510].
Definition sampleTicks : list Qc := [num 490; num 500].

(** *** The generations and their records *)

(** A record of the data set, with the two fields the chart reads, as
    numbers; [None] stands for [NaN]. *)
Record pokemon := Pokemon {
  Generation : option Qc;
  Total : option Qc
}.

(** [(a, b) => a - b], of which [sort] reads the sign. *)
Definition ascending (a b : Qc) : Z :=
  if decide (a < b)%Qc then (-1)%Z
  else if decide (b < a)%Qc then 1%Z else 0%Z.

(** [Map.prototype.get] on the entries of a Map. *)
Fixpoint mapGet {V} (key : string) (entries : list (string * V)) : option V :=
  match entries with
  | [] => None
  | (k, v) :: rest => if decide (k = key) then Some v else mapGet key rest
  end.

Section with_String.
(** [String(g)] of a number [g]. *)
Variable StringOf : Qc → string.

Definition generations (data : list pokemon) : list string :=
  StringOf <$>
    JS.sort ascending (omap id (JS.setFrom (Generation <$> data))).

(** [String(d.Generation)] *)
Definition genKey (d : pokemon) : string :=
  match Generation d with Some g => StringOf g | None => "NaN" end.

Definition dataByGen (data : list pokemon) : list (string * list pokemon) :=
  StackedBar.group genKey
    (filter (λ d, is_Some (Total d) ∧ is_Some (Generation d)) data).

Definition dataByGenArray (data : list pokemon)
    : list (string * list pokemon) :=
  filter (λ d, 0 < length d.2)
    ((λ genKey, (genKey, default [] (mapGet genKey (dataByGen data))))
     <$> generations data).
End with_String.

(** [d.values.map(p => p.Total).filter(val => !isNaN(val))] *)
Definition genDataTotals (values : list pokemon) : list Qc :=
  omap Total values.

(** [String] on the whole numbers from 0 to 9, to run the chart with. *)
Definition digit (g : Qc) : string :=
  String (Ascii.ascii_of_nat (48 + Z.to_nat (Qnum (this g)))) "".

(** Records to run the chart on. *)
Definition threeGenerations : list pokemon :=
  [Pokemon (Some (num 2)) (Some (num 500));
   Pokemon (Some (num 1)) (Some (num 300));
   Pokemon (Some (num 3)) None;
   Pokemon None (Some (num 400));
   Pokemon (Some (num 1)) (Some (num 320))].

End Ridgeline.

(** ** The histogram of [displayHistogram] *)
Module Histogram.

Definition HISTOGRAM_NUM_BINS : nat := 30.

(** An element of [bins]: the array of the values of the bin, with its
    bounds [x0] and [x1]. *)
Record bin := Bin {
  x0 : Qc;
  x1 : Qc;
  items : list Qc
}.

(** [d.length] *)
Definition count (b : bin) : nat := length (items b).

(** [Math.max(...data)]; [None] stands for the [-Infinity] of the empty
    array. *)
Definition larger (a b : Qc) : Qc := if decide (a < b)%Qc then b else a.

Definition maxValue (data : list Qc) : option Qc :=
  match data with
  | [] => None
  | v :: data' => Some (fold_left larger data' v)
  end.

(** [Math.ceil(maxValue / HISTOGRAM_NUM_BINS) * (HISTOGRAM_NUM_BINS + 1)] *)
Definition maxBinValue (maxValue : Qc) : Qc :=
  num (Qceiling (maxValue / ofNat HISTOGRAM_NUM_BINS)%Qc
       * Z.of_nat (HISTOGRAM_NUM_BINS + 1)).

(** *** The histogram generator of the d3 library

    [d3.histogram] is not among the sources of the repository.  It is
    modelled after the library: thresholds outside the domain are removed,
    there is one bin more than thresholds, and a value of the domain goes
    to the bin after the last threshold not above it. *)

(** [while (tz[0] <= x0) tz.shift()] *)
Fixpoint shiftLow (lo : Qc) (tz : list Qc) : list Qc :=
  match tz with
  | [] => []
  | t :: tz' => if decide (t ≤ lo)%Qc then shiftLow lo tz' else tz
  end.

(** [while (tz[m - 1] > x1) tz.pop()] *)
Definition popHigh (hi : Qc) (tz : list Qc) : list Qc :=
  reverse ((fix pop (rz : list Qc) : list Qc :=
    match rz with
    | [] => []
    | t :: rz' => if decide (hi < t)%Qc then pop rz' else rz
    end) (reverse tz)).

(** The empty bins: bin [i] runs from the threshold before it (or the
    lower end of the domain) to the threshold [i] (or the upper end). *)
Fixpoint emptyBins (lo hi : Qc) (tz : list Qc) : list bin :=
  match tz with
  | [] => [Bin lo hi []]
  | t :: tz' => Bin lo t [] :: emptyBins t hi tz'
  end.

(** [bisect(tz, x, 0, m)] for ascending thresholds: the number of
    thresholds not above [x]. *)
Definition bisect (tz : list Qc) (x : Qc) : nat :=
  length (filter (λ t, (t ≤ x)%Qc) tz).

(** [bins[i].push(x)] *)
Definition push (i : nat) (x : Qc) (bins : list bin) : list bin :=
  match bins !! i with
  | Some b => <[i := Bin (x0 b) (x1 b) (items b ++ [x])]> bins
  | None => bins
  end.

(** The generator with the domain [[lo, hi]] and the array [thresholds]. *)
Definition histogram (lo hi : Qc) (thresholds : list Qc) (data : list Qc)
    : list bin :=
  let tz := popHigh hi (shiftLow lo thresholds) in
  fold_left
    (λ bins x, if decide (lo ≤ x ∧ x ≤ hi)%Qc then push (bisect tz x) x bins
               else bins)
    data (emptyBins lo hi tz).

(** *** The ticks of the d3 library

    [x.ticks(count)] of a linear scale is [d3.ticks] over its domain; it is
    not among the sources either.  The step is a power of ten times 1, 2
    or 5, and the ticks are its multiples inside the domain. *)

Definition pow10 (p : Z) : Qc :=
  if decide (0 ≤ p)%Z then num (10 ^ p) else (/ num (10 ^ (- p)))%Qc.

(** [Math.floor(Math.log(step) / Math.LN10)] for a positive [step]: the
    largest [p] with [10^p <= step], searched upwards from 0 for a step of
    1 or more and downwards from -1 for a smaller one.  The searches stop
    within the number of binary digits of the whole part of the step, and
    within the denominator of the step. *)
Fixpoint log10up (fuel : nat) (step : Qc) (p : Z) : Z :=
  match fuel with
  | 0 => p
  | S fuel' => if decide (pow10 (p + 1) ≤ step)%Qc
               then log10up fuel' step (p + 1) else p
  end.

Fixpoint log10down (fuel : nat) (step : Qc) (p : Z) : Z :=
  match fuel with
  | 0 => p
  | S fuel' => if decide (pow10 p ≤ step)%Qc then p
               else log10down fuel' step (p - 1)
  end.

Definition log10floor (step : Qc) : Z :=
  if decide (1 ≤ step)%Qc
  then log10up (Z.to_nat (Z.log2 (Qfloor step)) + 1) step 0
  else log10down (Pos.to_nat (Qden step)) step (-1).

(** [error >= e10 ? 10 : error >= e5 ? 5 : error >= e2 ? 2 : 1], with
    [e10], [e5], [e2] the square roots of 50, 10 and 2. *)
Definition tickFactor (error : Qc) : Qc :=
  if decide (num 50 ≤ error * error)%Qc then num 10
  else if decide (num 10 ≤ error * error)%Qc then num 5
  else if decide (num 2 ≤ error * error)%Qc then num 2
  else num 1.

(** [tickIncrement(start, stop, count)], for [start < stop]; a negative
    result stands for the inverse of a step below 1. *)
Definition tickIncrement (start stop : Qc) (count : nat) : Qc :=
  let step := ((stop - start) / ofNat count)%Qc in
  let power := log10floor step in
  let error := (step / pow10 power)%Qc in
  if decide (0 ≤ power)%Z then (tickFactor error * pow10 power)%Qc
  else (- pow10 (- power) / tickFactor error)%Qc.

(** [d3.ticks(start, stop, count)] for a positive [count]. *)
Definition ticksUp (start stop : Qc) (count : nat) : list Qc :=
  let step := tickIncrement start stop count in
  if decide (0 < step)%Qc then
    let a := Qceiling (start / step)%Qc in
    let b := Qfloor (stop / step)%Qc in
    (λ i, (num (a + Z.of_nat i) * step)%Qc) <$> seq 0 (Z.to_nat (b - a + 1))
  else if decide (step < 0)%Qc then
    let a := Qfloor (start * step)%Qc in
    let b := Qceiling (stop * step)%Qc in
    (λ i, (num (a - Z.of_nat i) / step)%Qc) <$> seq 0 (Z.to_nat (a - b + 1))
  else [].

Definition d3ticks (start stop : Qc) (count : nat) : list Qc :=
  if decide (start = stop) then [start]
  else if decide (stop < start)%Qc then reverse (ticksUp stop start count)
  else ticksUp start stop count.

(** *** The bins of the chart *)

Section with_ticks.
(** The ticks of the scale [x], a function of its domain and of the
    number of ticks asked for. *)
Variable ticks : Qc → Qc → nat → list Qc.

(** [bins] of [displayHistogram]; [None] for the empty array, whose
    maximum is not a number of the model. *)
Definition displayHistogram (data : list Qc) : option (list bin) :=
  m ← maxValue data;
  Some (histogram 0%Qc (maxBinValue m)
          (ticks 0%Qc (maxBinValue m) HISTOGRAM_NUM_BINS) data).
End with_ticks.

(** Salaries to run the chart on. *)
Definition oneSalary : list Qc := [num 100].
Definition someSalaries : list Qc :=
  [num 100; num 5; num 7; num 120; num 124; num (-3)].

End Histogram.

(** * Proofs *)

(** ** Sums and filters over lists *)
Module ListFacts.

Lemma sum_list_with_add {A} (f g : A → nat) l :
  sum_list_with (λ x, f x + g x) l = sum_list_with f l + sum_list_with g l.
Proof. induction l as [|x l IH]; simpl; lia. Qed.

Lemma sum_list_with_ext_in {A} (f g : A → nat) l :
  (∀ x, x ∈ l → f x = g x) → sum_list_with f l = sum_list_with g l.
Proof.
  induction l as [|x l IH]; intros H; simpl; [done|].
  rewrite H, IH; [done| |]; set_solver.
Qed.

Lemma sum_list_with_zero {A} (l : list A) : sum_list_with (λ _, 0) l = 0.
Proof. induction l; simpl; lia. Qed.

(** A sum that is zero except at one index of the list. *)
Lemma sum_list_with_single (c : nat → nat) (a : nat) (l : list nat) :
  NoDup l → a ∈ l →
  sum_list_with (λ x, if decide (x = a) then c x else 0) l = c a.
Proof.
  induction 1 as [|x l Hx Hnd IH]; [by intros ?%elem_of_nil|].
  intros Ha. simpl. destruct (decide (x = a)) as [->|Hne].
  - rewrite (sum_list_with_ext_in _ (λ _, 0)), sum_list_with_zero; [lia|].
    intros y Hy. destruct (decide (y = a)); [congruence|done].
  - rewrite IH; [done|set_solver].
Qed.

Lemma sum_list_with_one {A} (l : list A) : sum_list_with (λ _, 1) l = length l.
Proof. induction l; simpl; lia. Qed.

Lemma sum_list_with_count {A} (Q : A → Prop) `{∀ x, Decision (Q x)} (l : list A) :
  sum_list_with (λ x, ind (bool_decide (Q x))) l = length (filter Q l).
Proof.
  induction l as [|x l IH]; [done|]. simpl. rewrite filter_cons, IH.
  destruct (decide (Q x)).
  - by rewrite bool_decide_eq_true_2.
  - by rewrite bool_decide_eq_false_2.
Qed.

Lemma filter_none {A} (P : A → Prop) `{∀ x, Decision (P x)} (l : list A) :
  Forall (λ x, ¬ P x) l → filter P l = [].
Proof.
  induction 1 as [|x l Hx _ IH]; [done|].
  rewrite filter_cons. by destruct (decide (P x)).
Qed.

Lemma filter_all {A} (P : A → Prop) `{∀ x, Decision (P x)} (l : list A) :
  Forall P l → filter P l = l.
Proof.
  induction 1 as [|x l Hx _ IH]; [done|].
  rewrite filter_cons, IH. by destruct (decide (P x)).
Qed.

Lemma StronglySorted_filter {A} (R : relation A) (P : A → Prop)
    `{∀ x, Decision (P x)} (l : list A) :
  StronglySorted R l → StronglySorted R (filter P l).
Proof.
  induction 1 as [|x l Hs IH Hx]; [constructor|].
  rewrite filter_cons. destruct (decide (P x)); [|done].
  constructor; [done|].
  apply Forall_forall. intros y [_ Hy]%list_elem_of_filter.
  rewrite Forall_forall in Hx. by apply Hx.
Qed.

Lemma StronglySorted_lookup_lt {A} (R : relation A) (l : list A) i j x y :
  StronglySorted R l → i < j → l !! i = Some x → l !! j = Some y → R x y.
Proof.
  intros Hs. revert i j. induction Hs as [|z l Hs IH Hz]; intros i j Hij Hi Hj.
  - by rewrite lookup_nil in Hi.
  - destruct j as [|j]; [lia|]. destruct i as [|i].
    + cbn in Hi. injection Hi as ->.
      rewrite Forall_forall in Hz. apply Hz.
      by apply (list_elem_of_lookup_2 _ j).
    + apply (IH i j); [lia|done|done].
Qed.

Lemma sum_list_with_fmap {A B} (f : B → nat) (g : A → B) (l : list A) :
  sum_list_with f (g <$> l) = sum_list_with (λ x, f (g x)) l.
Proof.
  induction l as [|x l IH]; [done|].
  rewrite fmap_cons. cbn [sum_list_with]. by rewrite IH.
Qed.

Lemma filter_fmap {A B} (P : B → Prop) `{∀ y, Decision (P y)}
    (g : A → B) (l : list A) :
  filter P (g <$> l) = g <$> filter (λ x, P (g x)) l.
Proof.
  induction l as [|x l IH]; [done|].
  rewrite fmap_cons, !filter_cons, IH.
  by destruct (decide (P (g x))).
Qed.

End ListFacts.

(** ** Facts about the built-ins *)
Module JSFacts.
Import JS.

Section set_from.
Context `{EqDecision A}.
Implicit Types l acc : list A.

Lemma filter_notin_app_single acc x l :
  filter (λ y, y ∉ acc ++ [x]) l = filter (λ y, y ∉ acc) (filter (λ y, y ≠ x) l).
Proof.
  induction l as [|y l IH]; [done|].
  rewrite !filter_cons.
  destruct (decide (y ≠ x)) as [Hne|Heq].
  - rewrite filter_cons.
    destruct (decide (y ∉ acc ++ [x])) as [H1|H1];
      destruct (decide (y ∉ acc)) as [H2|H2]; rewrite IH; try done.
    + exfalso. apply H2. intros ?. apply H1. set_solver.
    + exfalso. apply H1. intros [?|?%list_elem_of_singleton]%elem_of_app; done.
  - destruct (decide (y ∉ acc ++ [x])) as [H1|H1]; [|done].
    exfalso. apply H1. apply dec_stable in Heq. set_solver.
Qed.

Lemma filter_notin_drop acc x l :
  x ∈ acc →
  filter (λ y, y ∉ acc) (filter (λ y, y ≠ x) l) = filter (λ y, y ∉ acc) l.
Proof.
  intros Hx. induction l as [|y l IH]; [done|].
  rewrite !filter_cons.
  destruct (decide (y ≠ x)) as [Hne|Heq].
  - rewrite filter_cons. by rewrite IH.
  - apply dec_stable in Heq. subst y.
    destruct (decide (x ∉ acc)); [done|]. apply IH.
Qed.

(** The loop of insertions, from any Set already built. *)
Lemma fold_addNew l acc :
  fold_left addNew l acc = acc ++ filter (λ y, y ∉ acc) (firstSeen l).
Proof.
  revert acc. induction l as [|x l IH]; intros acc; simpl.
  - by rewrite app_nil_r.
  - rewrite IH. unfold addNew. rewrite filter_cons.
    destruct (decide (x ∈ acc)) as [Hin|Hout].
    + destruct (decide (x ∉ acc)); [done|].
      by rewrite filter_notin_drop.
    + destruct (decide (x ∉ acc)); [|done].
      rewrite <- app_assoc. simpl. by rewrite filter_notin_app_single.
Qed.

Lemma setFrom_firstSeen l : setFrom l = firstSeen l.
Proof.
  unfold setFrom. rewrite fold_addNew. simpl.
  induction (firstSeen l) as [|y k IH]; [done|].
  rewrite filter_cons. destruct (decide (y ∉ [])) as [|H]; [by rewrite IH|].
  exfalso. apply H. apply not_elem_of_nil.
Qed.

Lemma elem_of_firstSeen x l : x ∈ firstSeen l ↔ x ∈ l.
Proof.
  induction l as [|y l IH]; simpl; [done|].
  rewrite !elem_of_cons, list_elem_of_filter, IH.
  destruct (decide (x = y)); naive_solver.
Qed.

Lemma NoDup_firstSeen l : NoDup (firstSeen l).
Proof.
  induction l as [|y l IH]; simpl; [constructor|].
  constructor; [|by apply NoDup_filter].
  rewrite list_elem_of_filter. naive_solver.
Qed.

Lemma elem_of_setFrom x l : x ∈ setFrom l ↔ x ∈ l.
Proof. rewrite setFrom_firstSeen. apply elem_of_firstSeen. Qed.

Lemma NoDup_setFrom l : NoDup (setFrom l).
Proof. rewrite setFrom_firstSeen. apply NoDup_firstSeen. Qed.
End set_from.

Section from_entries.
Context {V : Type}.

Lemma fromEntries_snoc (entries : list (string * V)) k v :
  fromEntries (entries ++ [(k, v)]) = <[k := v]> (fromEntries entries).
Proof. unfold fromEntries. by rewrite fold_left_app. Qed.

(** An object whose entries all carry the same value. *)
Lemma fromEntries_const (keys : list string) (v : V) k :
  fromEntries ((λ key, (key, v)) <$> keys) !! k
  = if decide (k ∈ keys) then Some v else None.
Proof.
  induction keys as [|key keys IH] using rev_ind.
  - unfold fromEntries. simpl. rewrite lookup_empty.
    destruct (decide (k ∈ [])) as [?%elem_of_nil|]; done.
  - rewrite fmap_app. simpl. rewrite fromEntries_snoc.
    destruct (decide (key = k)) as [->|Hne].
    + rewrite lookup_insert_eq.
      destruct (decide (k ∈ keys ++ [k])) as [|Hn]; [done|].
      exfalso. apply Hn. set_solver.
    + rewrite lookup_insert_ne, IH by done.
      destruct (decide (k ∈ keys)); destruct (decide (k ∈ keys ++ [key]));
        try done; exfalso; set_solver.
Qed.
End from_entries.

Section sort.
Context {A : Type}.
Implicit Types (cmp : A → A → Z) (l s : list A).

Lemma sortInsert_Permutation cmp x s : sortInsert cmp x s ≡ₚ x :: s.
Proof.
  induction s as [|y s IH]; simpl; [done|].
  destruct (cmp x y <=? 0)%Z; [done|].
  rewrite IH. apply Permutation_swap.
Qed.

Lemma sort_Permutation cmp l : sort cmp l ≡ₚ l.
Proof.
  induction l as [|x l IH]; simpl; [done|].
  by rewrite sortInsert_Permutation, IH.
Qed.

(** A comparison by descending key, [(a, b) => key(b) - key(a)]. *)
Variable key : A → nat.
Let desc (a b : A) : Z := (Z.of_nat (key b) - Z.of_nat (key a))%Z.

Lemma sortInsert_desc_sorted x s :
  StronglySorted (λ a b, key b ≤ key a) s →
  StronglySorted (λ a b, key b ≤ key a) (sortInsert desc x s).
Proof.
  induction 1 as [|y s Hs IH Hy]; simpl; [by repeat constructor|].
  destruct (Z.leb_spec (desc x y) 0) as [Hle|Hgt]; unfold desc in *.
  - constructor; [by constructor|]. constructor; [lia|].
    eapply Forall_impl; [exact Hy|]. simpl. intros z Hz. lia.
  - constructor; [done|].
    rewrite sortInsert_Permutation. constructor; [lia|done].
Qed.

Lemma sort_desc_sorted l :
  StronglySorted (λ a b, key b ≤ key a) (sort desc l).
Proof.
  induction l as [|x l IH]; simpl; [constructor|].
  by apply sortInsert_desc_sorted.
Qed.

(** The sort is stable: the elements with one key keep their order. *)
Lemma sortInsert_desc_stable t x s :
  filter (λ a, key a = t) (sortInsert desc x s)
  = filter (λ a, key a = t) (x :: s).
Proof.
  induction s as [|y s IH]; simpl; [done|].
  destruct (Z.leb_spec (desc x y) 0) as [Hle|Hgt]; unfold desc in *; [done|].
  rewrite (filter_cons _ y), IH, !filter_cons.
  destruct (decide (key y = t)), (decide (key x = t)); try done. lia.
Qed.

Lemma sort_desc_stable t l :
  filter (λ a, key a = t) (sort desc l) = filter (λ a, key a = t) l.
Proof.
  induction l as [|x l IH]; simpl; [done|].
  by rewrite sortInsert_desc_stable, !filter_cons, IH.
Qed.
End sort.

End JSFacts.

(** ** Facts about the Sankey construction *)
Module SankeyFacts.
Import JS ListFacts JSFacts Sankey.

(** *** The index map *)

Lemma nodeMapOf_snoc ids x :
  nodeMapOf (ids ++ [x]) = <[x := length ids]> (nodeMapOf ids).
Proof.
  unfold nodeMapOf, fromEntries.
  rewrite imap_app, fold_left_app. simpl. by rewrite Nat.add_0_r.
Qed.

(** A value is mapped to the index of its last occurrence. *)
Lemma nodeMapOf_lookup ids v i :
  nodeMapOf ids !! v = Some i ↔
  ids !! i = Some v ∧ ∀ j, i < j → ids !! j ≠ Some v.
Proof.
  revert i. induction ids as [|x ids IH] using rev_ind; intros i.
  - unfold nodeMapOf, fromEntries. simpl. rewrite lookup_empty.
    split; [done|]. by intros [? _].
  - rewrite nodeMapOf_snoc. destruct (decide (x = v)) as [->|Hne].
    + rewrite lookup_insert_eq. split.
      * intros [= <-]. split.
        { by rewrite lookup_app_r, Nat.sub_diag by lia. }
        intros j Hj. rewrite lookup_ge_None_2; [done|].
        rewrite length_app. simpl. lia.
      * intros [Hi Hlast]. f_equal.
        destruct (decide (i = length ids)) as [|Hne]; [done|].
        exfalso. apply (Hlast (length ids)).
        -- apply lookup_lt_Some in Hi. rewrite length_app in Hi. simpl in Hi. lia.
        -- by rewrite lookup_app_r, Nat.sub_diag by lia.
    + rewrite lookup_insert_ne by done. rewrite IH. split.
      * intros [Hi Hlast]. split.
        { by apply lookup_app_l_Some. }
        intros j Hj Hjv. apply lookup_app_Some in Hjv as [Hjv|[_ Hjv]].
        -- by apply (Hlast j).
        -- apply list_lookup_singleton_Some in Hjv as [_ ?]. done.
      * intros [Hi Hlast]. apply lookup_app_Some in Hi as [Hi|[_ Hi]].
        -- split; [done|]. intros j Hj Hjv. apply (Hlast j Hj).
           by apply lookup_app_l_Some.
        -- apply list_lookup_singleton_Some in Hi as [_ ?]. done.
Qed.

Lemma nodeMapOf_lookup_NoDup ids v i :
  NoDup ids → nodeMapOf ids !! v = Some i ↔ ids !! i = Some v.
Proof.
  intros Hnd. rewrite nodeMapOf_lookup. split; [by intros [? _]|].
  intros Hi. split; [done|]. intros j Hj Hjv.
  pose proof (NoDup_lookup _ _ _ _ Hnd Hi Hjv). lia.
Qed.

Lemma nodeMapOf_elem ids v :
  v ∈ ids → ∃ i, nodeMapOf ids !! v = Some i ∧ i < length ids.
Proof.
  induction ids as [|x ids IH] using rev_ind; [by intros ?%elem_of_nil|].
  intros Hv. rewrite nodeMapOf_snoc, length_app. simpl.
  destruct (decide (x = v)) as [->|Hne].
  - exists (length ids). rewrite lookup_insert_eq. split; [done|lia].
  - rewrite lookup_insert_ne by done.
    destruct IH as (i & Hi & Hlt); [set_solver|].
    exists i. split; [done|lia].
Qed.

(** *** The link matrix *)

Lemma cell_lookup m i j r c :
  m !! i = Some r → r !! j = Some c → cell m i j = c.
Proof. unfold cell. intros -> ?. simpl. by simplify_option_eq. Qed.

Lemma emptyMatrix_square n : square n (emptyMatrix n).
Proof.
  unfold emptyMatrix. split; [by rewrite length_replicate|].
  apply Forall_replicate. by rewrite length_replicate.
Qed.

Lemma cell_emptyMatrix n i j : cell (emptyMatrix n) i j = 0.
Proof.
  unfold cell, emptyMatrix.
  destruct (replicate n (replicate n 0) !! i) as [r|] eqn:Hr; [|done].
  apply lookup_replicate in Hr as [-> _]. simpl.
  destruct (replicate n 0 !! j) as [c|] eqn:Hc; [|done].
  by apply lookup_replicate in Hc as [-> _].
Qed.

(** [linkMatrix[i][j] += 1] inside the matrix: one cell grows by one. *)
Lemma bump_square n m i j :
  square n m → i < n → j < n →
  ∃ m', bump i j m = Some m' ∧ square n m' ∧
    ∀ i' j', cell m' i' j' = cell m i' j' + ind (bool_decide (i' = i ∧ j' = j)).
Proof.
  intros [Hlen Hrows] Hi Hj.
  destruct (lookup_lt_is_Some_2 m i) as [r Hr]; [lia|].
  assert (length r = n) as Hrl.
  { rewrite Forall_forall in Hrows. apply Hrows.
    by eapply list_elem_of_lookup_2. }
  destruct (lookup_lt_is_Some_2 r j) as [c Hc]; [lia|].
  exists (<[i := <[j := c + 1]> r]> m). split; [|split; [split|]].
  - unfold bump. rewrite Hr. simpl. by rewrite Hc.
  - by rewrite length_insert.
  - apply Forall_insert; [done|]. by rewrite length_insert.
  - intros i' j'. unfold cell at 1.
    destruct (decide (i' = i)) as [->|Hne].
    + rewrite list_lookup_insert_eq by lia. simpl.
      destruct (decide (j' = j)) as [->|Hnej].
      * rewrite list_lookup_insert_eq by lia. simpl.
        rewrite (cell_lookup m i j r c) by done.
        by rewrite bool_decide_eq_true_2.
      * rewrite list_lookup_insert_ne by done.
        rewrite bool_decide_eq_false_2 by naive_solver.
        unfold cell. rewrite Hr. simpl. unfold ind. lia.
    + rewrite list_lookup_insert_ne by done.
      rewrite bool_decide_eq_false_2 by naive_solver.
      unfold cell, ind. lia.
Qed.

Lemma cellSum_bump P n m m' i j :
  i < n → j < n →
  (∀ i' j', cell m' i' j' = cell m i' j' + ind (bool_decide (i' = i ∧ j' = j))) →
  cellSum P n m' = cellSum P n m + ind (P i j).
Proof.
  intros Hi Hj Hcell. unfold cellSum, cellSumOver.
  rewrite (sum_list_with_ext_in _
    (λ i', sum_list_with (λ j', if P i' j' then cell m i' j' else 0) (seq 0 n)
           + (if decide (i' = i) then ind (P i j) else 0))).
  - rewrite sum_list_with_add. f_equal.
    rewrite (sum_list_with_single (λ _, ind (P i j))); [done|apply NoDup_seq|].
    apply elem_of_seq. lia.
  - intros i' _.
    rewrite (sum_list_with_ext_in _
      (λ j', (if P i' j' then cell m i' j' else 0)
             + (if decide (j' = j)
                then (if decide (i' = i) then ind (P i j) else 0) else 0))).
    + rewrite sum_list_with_add. f_equal.
      rewrite (sum_list_with_single
                 (λ _, if decide (i' = i) then ind (P i j) else 0));
        [done|apply NoDup_seq|].
      apply elem_of_seq. lia.
    + intros j' _. rewrite Hcell.
      destruct (decide (j' = j)) as [->|]; destruct (decide (i' = i)) as [->|].
      * rewrite bool_decide_eq_true_2 by done. unfold ind. destruct (P i j); lia.
      * rewrite bool_decide_eq_false_2 by naive_solver.
        unfold ind. destruct (P i' j); lia.
      * rewrite bool_decide_eq_false_2 by naive_solver.
        unfold ind. destruct (P i j'); lia.
      * rewrite bool_decide_eq_false_2 by naive_solver.
        unfold ind. destruct (P i' j'); lia.
Qed.

Lemma cellSum_emptyMatrix P n : cellSum P n (emptyMatrix n) = 0.
Proof.
  unfold cellSum, cellSumOver.
  rewrite (sum_list_with_ext_in _ (λ _, 0)); [apply sum_list_with_zero|].
  intros i _.
  rewrite (sum_list_with_ext_in _ (λ _, 0)); [apply sum_list_with_zero|].
  intros j _. rewrite cell_emptyMatrix. by destruct (P i j).
Qed.

(** The cell [i], [j] is the sum over the one-point predicate. *)
Lemma cellSum_point n m i j :
  i < n → j < n →
  cellSum (λ i' j', bool_decide (i' = i ∧ j' = j)) n m = cell m i j.
Proof.
  intros Hi Hj. unfold cellSum, cellSumOver.
  rewrite (sum_list_with_ext_in _
    (λ i', if decide (i' = i) then cell m i' j else 0)).
  - rewrite (sum_list_with_single (λ i', cell m i' j)); [done|apply NoDup_seq|].
    apply elem_of_seq. lia.
  - intros i' _.
    rewrite (sum_list_with_ext_in _
      (λ j', if decide (j' = j)
             then (if decide (i' = i) then cell m i' j' else 0) else 0)).
    + rewrite (sum_list_with_single
                 (λ j', if decide (i' = i) then cell m i' j' else 0));
        [done|apply NoDup_seq|].
      apply elem_of_seq. lia.
    + intros j' _.
      destruct (decide (j' = j)) as [->|]; destruct (decide (i' = i)) as [->|].
      * by rewrite bool_decide_eq_true_2.
      * by rewrite bool_decide_eq_false_2 by naive_solver.
      * by rewrite bool_decide_eq_false_2 by naive_solver.
      * by rewrite bool_decide_eq_false_2 by naive_solver.
Qed.

(** *** The links read off the matrix *)

Lemma weight_app P l1 l2 : weight P (l1 ++ l2) = weight P l1 + weight P l2.
Proof. unfold weight. by rewrite filter_app, sum_list_with_app. Qed.

Lemma linksOver_cons i srcs tgts m :
  linksOver (i :: srcs) tgts m =
  (tgts ≫= λ j, if decide (0 < cell m i j) then [Link i j (cell m i j)] else [])
  ++ linksOver srcs tgts m.
Proof. done. Qed.

Lemma weight_row P m i tgts :
  weight P (tgts ≫= λ j,
    if decide (0 < cell m i j) then [Link i j (cell m i j)] else []) =
  sum_list_with (λ j, if P i j then cell m i j else 0) tgts.
Proof.
  induction tgts as [|j tgts IH]; [done|].
  change ((j :: tgts) ≫= ?f) with (f j ++ (tgts ≫= f)).
  rewrite weight_app, IH. simpl. f_equal.
  destruct (decide (0 < cell m i j)) as [Hpos|Hz].
  - unfold weight. rewrite filter_cons. simpl.
    destruct (P i j); simpl; [|done].
    destruct (decide (true = true)); [simpl; lia|done].
  - replace (cell m i j) with 0 by lia. by destruct (P i j).
Qed.

Lemma weight_linksOver P srcs tgts m :
  weight P (linksOver srcs tgts m) = cellSumOver P srcs tgts m.
Proof.
  induction srcs as [|i srcs IH]; [done|].
  rewrite linksOver_cons, weight_app, weight_row, IH. done.
Qed.

Lemma elem_of_linksOver l srcs tgts m :
  l ∈ linksOver srcs tgts m ↔
  source l ∈ srcs ∧ target l ∈ tgts ∧
  value l = cell m (source l) (target l) ∧ 0 < value l.
Proof.
  unfold linksOver. rewrite list_elem_of_bind. split.
  - intros (i & (j & Hl & Hj)%list_elem_of_bind & Hi).
    destruct (decide (0 < cell m i j)); [|by apply elem_of_nil in Hl].
    apply list_elem_of_singleton in Hl as ->. simpl. done.
  - intros (Hi & Hj & Hv & Hpos). exists (source l). split; [|done].
    apply list_elem_of_bind. exists (target l). split; [|done].
    rewrite <- Hv. destruct (decide (0 < value l)); [|done].
    apply list_elem_of_singleton. by destruct l.
Qed.

(** *** The loop over the rows *)

Lemma forEach_flow nm n data m :
  square n m →
  Forall (λ r, ∃ a b c,
    nm !! salaryBin r = Some a ∧ nm !! experienceLevel r = Some b ∧
    nm !! workType r = Some c ∧ a < n ∧ b < n ∧ c < n) data →
  ∃ m', forEach nm data m = Some m' ∧ square n m' ∧
    ∀ P, cellSum P n m' = cellSum P n m + flow nm P data.
Proof.
  intros Hsq Hdata. revert m Hsq.
  induction Hdata as [|r data (a & b & c & Ha & Hb & Hc & Han & Hbn & Hcn) _ IH];
    intros m Hsq.
  - exists m. split; [done|]. split; [done|]. intros P. unfold flow. simpl. lia.
  - destruct (bump_square n m a b Hsq Han Hbn) as (m1 & Hm1 & Hsq1 & Hcell1).
    destruct (bump_square n m1 b c Hsq1 Hbn Hcn) as (m2 & Hm2 & Hsq2 & Hcell2).
    destruct (IH m2 Hsq2) as (m' & Hm' & Hsq' & Hsum).
    exists m'. split; [|split; [done|]].
    + simpl. unfold addRow. rewrite Ha, Hb, Hc. simpl.
      rewrite Hm1. simpl. rewrite Hm2. simpl. done.
    + intros P. rewrite Hsum.
      rewrite (cellSum_bump P n m1 m2 b c Hbn Hcn Hcell2).
      rewrite (cellSum_bump P n m m1 a b Han Hbn Hcell1).
      unfold flow. simpl. unfold idx. rewrite Ha, Hb, Hc. simpl. lia.
Qed.

(** Every value of a row is a key of [nodeMap], with an index inside the
    matrix. *)
Lemma nodeMap_row data r :
  r ∈ data →
  ∃ a b c,
    nodeMap data !! salaryBin r = Some a ∧
    nodeMap data !! experienceLevel r = Some b ∧
    nodeMap data !! workType r = Some c ∧
    a < length (nodes data) ∧ b < length (nodes data) ∧ c < length (nodes data).
Proof.
  intros Hr. unfold nodeMap.
  destruct (nodeMapOf_elem (nodes data) (salaryBin r)) as (a & Ha & Han).
  { unfold nodes, salaryBins. rewrite !elem_of_app, elem_of_setFrom.
    left. by apply list_elem_of_fmap_2. }
  destruct (nodeMapOf_elem (nodes data) (experienceLevel r)) as (b & Hb & Hbn).
  { unfold nodes, experienceLevels. rewrite !elem_of_app, elem_of_setFrom.
    right; left. by apply list_elem_of_fmap_2. }
  destruct (nodeMapOf_elem (nodes data) (workType r)) as (c & Hc & Hcn).
  { unfold nodes, workTypes. rewrite !elem_of_app, elem_of_setFrom.
    right; right. by apply list_elem_of_fmap_2. }
  by exists a, b, c.
Qed.

(** [displaySankey] always produces its links; their weights are the
    contributions of the rows, whatever the end points selected. *)
Lemma displaySankey_flow data :
  ∃ m links,
    linkMatrix data = Some m ∧
    square (length (nodes data)) m ∧
    displaySankey data = Some (nodes data, links) ∧
    links = linksOf (length (nodes data)) m ∧
    ∀ P, weight P links = flow (nodeMap data) P data.
Proof.
  destruct (forEach_flow (nodeMap data) (length (nodes data)) data
              (emptyMatrix (length (nodes data)))) as (m & Hm & Hsq & Hsum).
  - apply emptyMatrix_square.
  - apply Forall_forall. intros r Hr. by apply nodeMap_row.
  - exists m, (linksOf (length (nodes data)) m).
    split; [done|]. split; [done|]. split.
    { unfold displaySankey. fold (linkMatrix data). unfold linkMatrix.
      rewrite Hm. done. }
    split; [done|]. intros P. unfold linksOf. rewrite weight_linksOver.
    fold (cellSum P (length (nodes data)) m).
    rewrite Hsum, cellSum_emptyMatrix. done.
Qed.

(** *** Stages without a shared value *)

Lemma elem_of_salaryBins data v :
  v ∈ salaryBins data ↔ ∃ r, r ∈ data ∧ v = salaryBin r.
Proof.
  unfold salaryBins. rewrite elem_of_setFrom, list_elem_of_fmap. naive_solver.
Qed.

Lemma elem_of_experienceLevels data v :
  v ∈ experienceLevels data ↔ ∃ r, r ∈ data ∧ v = experienceLevel r.
Proof.
  unfold experienceLevels. rewrite elem_of_setFrom, list_elem_of_fmap.
  naive_solver.
Qed.

Lemma elem_of_workTypes data v :
  v ∈ workTypes data ↔ ∃ r, r ∈ data ∧ v = workType r.
Proof.
  unfold workTypes. rewrite elem_of_setFrom, list_elem_of_fmap. naive_solver.
Qed.

Lemma noSharedValue_elim data r1 r2 :
  noSharedValue data → r1 ∈ data → r2 ∈ data →
  salaryBin r1 ≠ experienceLevel r2 ∧
  salaryBin r1 ≠ workType r2 ∧
  experienceLevel r1 ≠ workType r2.
Proof.
  unfold noSharedValue. rewrite Forall_forall. intros H H1 H2.
  specialize (H r1 H1). rewrite Forall_forall in H. by apply H.
Qed.

Lemma noSharedValue_NoDup data : noSharedValue data → NoDup (nodes data).
Proof.
  intros Hns. unfold nodes. apply NoDup_app. split; [apply NoDup_setFrom|].
  split.
  - intros v (r1 & Hr1 & ->)%elem_of_salaryBins
      [(r2 & Hr2 & Heq)%elem_of_experienceLevels
      |(r2 & Hr2 & Heq)%elem_of_workTypes]%elem_of_app;
      destruct (noSharedValue_elim data r1 r2 Hns Hr1 Hr2) as (? & ? & ?); done.
  - apply NoDup_app. split; [apply NoDup_setFrom|].
    split; [|apply NoDup_setFrom].
    intros v (r1 & Hr1 & ->)%elem_of_experienceLevels
      (r2 & Hr2 & Heq)%elem_of_workTypes.
    destruct (noSharedValue_elim data r1 r2 Hns Hr1 Hr2) as (? & ? & ?); done.
Qed.

(** Without a shared value, the index of a row's value lies in the range of
    its own stage. *)
Lemma nodeMap_stages data r :
  NoDup (nodes data) → r ∈ data →
  ∃ a p c,
    nodeMap data !! salaryBin r = Some a ∧
    salaryBins data !! a = Some (salaryBin r) ∧
    nodeMap data !! experienceLevel r = Some (length (salaryBins data) + p) ∧
    experienceLevels data !! p = Some (experienceLevel r) ∧
    nodeMap data !! workType r
    = Some (length (salaryBins data) + length (experienceLevels data) + c) ∧
    workTypes data !! c = Some (workType r).
Proof.
  intros Hnd Hr.
  assert (salaryBin r ∈ salaryBins data) as (a & Ha)%list_elem_of_lookup_1
    by (apply elem_of_salaryBins; eauto).
  assert (experienceLevel r ∈ experienceLevels data)
    as (p & Hp)%list_elem_of_lookup_1
    by (apply elem_of_experienceLevels; eauto).
  assert (workType r ∈ workTypes data) as (c & Hc)%list_elem_of_lookup_1
    by (apply elem_of_workTypes; eauto).
  exists a, p, c. unfold nodeMap.
  assert (nodes data !! a = Some (salaryBin r)) as Ha'.
  { unfold nodes. by apply lookup_app_l_Some. }
  assert (nodes data !! (length (salaryBins data) + p)
          = Some (experienceLevel r)) as Hp'.
  { unfold nodes. rewrite lookup_app_r by lia.
    replace (length (salaryBins data) + p - length (salaryBins data)) with p
      by lia.
    by apply lookup_app_l_Some. }
  assert (nodes data !! (length (salaryBins data)
                         + length (experienceLevels data) + c)
          = Some (workType r)) as Hc'.
  { unfold nodes. rewrite lookup_app_r by lia. rewrite lookup_app_r by lia.
    replace (length (salaryBins data) + length (experienceLevels data) + c
             - length (salaryBins data) - length (experienceLevels data))
      with c by lia.
    done. }
  apply (nodeMapOf_lookup_NoDup _ _ _ Hnd) in Ha', Hp', Hc'.
  done.
Qed.

Lemma idx_stages data r :
  NoDup (nodes data) → r ∈ data →
  ∃ a p c,
    idx (nodeMap data) (salaryBin r) = a ∧
    salaryBins data !! a = Some (salaryBin r) ∧
    idx (nodeMap data) (experienceLevel r) = length (salaryBins data) + p ∧
    experienceLevels data !! p = Some (experienceLevel r) ∧
    idx (nodeMap data) (workType r) =
      length (salaryBins data) + length (experienceLevels data) + c ∧
    workTypes data !! c = Some (workType r).
Proof.
  intros Hnd Hr.
  destruct (nodeMap_stages data r Hnd Hr)
    as (a & p & c & Ha & ? & Hp & ? & Hc & ?).
  exists a, p, c. unfold idx. by rewrite Ha, Hp, Hc.
Qed.

Lemma length_nodes data :
  length (nodes data) =
  length (salaryBins data) + length (experienceLevels data)
  + length (workTypes data).
Proof. unfold nodes. rewrite !length_app. lia. Qed.

(** *** Node order and node identity *)

Lemma sample_noSharedValue : noSharedValue sample.
Proof. unfold noSharedValue, sample. repeat constructor; done. Qed.

(** C3, as the script has it: the node sequence lists the distinct values of
    the first selector in first-seen order, then those of the second, then
    those of the third, a block per selector.  When no value is shared
    between selectors, the nodes are all different, every node has an index
    of its own in [nodeMap], and the values of a row are looked up as nodes
    of the blocks of their own selectors. *)
Theorem nodes_by_selector_index_by_value data :
  nodes data = firstSeen (salaryBin <$> data)
               ++ firstSeen (experienceLevel <$> data)
               ++ firstSeen (workType <$> data) ∧
  (noSharedValue data →
   NoDup (nodes data) ∧
   (∀ v i, nodeMap data !! v = Some i ↔ nodes data !! i = Some v) ∧
   ∀ r, r ∈ data →
     ∃ a p c,
       nodeMap data !! salaryBin r = Some a ∧
       salaryBins data !! a = Some (salaryBin r) ∧
       nodeMap data !! experienceLevel r
       = Some (length (salaryBins data) + p) ∧
       experienceLevels data !! p = Some (experienceLevel r) ∧
       nodeMap data !! workType r
       = Some (length (salaryBins data) + length (experienceLevels data) + c) ∧
       workTypes data !! c = Some (workType r)).
Proof.
  split.
  - unfold nodes, salaryBins, experienceLevels, workTypes.
    by rewrite !setFrom_firstSeen.
  - intros Hns. pose proof (noSharedValue_NoDup data Hns) as Hnd.
    split; [done|]. split.
    + intros v i. by apply nodeMapOf_lookup_NoDup.
    + intros r Hr. by apply nodeMap_stages.
Qed.

Lemma nodes_by_selector_index_by_value_witness :
  noSharedValue sample ∧
  nodes sample = ["x"; "y"; "u"; "z"; "w"] ∧
  nodeMap sample !! "u" = Some 2.
Proof.
  split; [apply sample_noSharedValue|]. split; [reflexivity|].
  apply (proj1 (proj2 (proj2 (nodes_by_selector_index_by_value sample)
                         sample_noSharedValue))).
  reflexivity.
Defined.

(** C3 as stated fails: the value "a" is a salary bin and an experience
    level of the one row.  The node sequence has a node for each, at indices
    0 and 1, but the index map knows "a" as node 1 only, so the link that
    leaves the salary bin leaves node 1, outside the block of the first
    selector, and node 0 has no link. *)
Lemma shared_value_is_merged :
  nodes [Row "a" "a" "b"] = ["a"; "a"; "b"] ∧
  nodeMap [Row "a" "a" "b"] !! "a" = Some 1 ∧
  displaySankey [Row "a" "a" "b"]
    = Some (["a"; "a"; "b"], [Link 1 1 1; Link 1 2 1]) ∧
  ¬ (∀ data r i, r ∈ data →
       nodeMap data !! salaryBin r = Some i → i < length (salaryBins data)).
Proof.
  split; [reflexivity|]. split; [reflexivity|]. split; [reflexivity|].
  intros H.
  specialize (H [Row "a" "a" "b"] (Row "a" "a" "b") 1).
  assert (1 < length (salaryBins [Row "a" "a" "b"])) as Hlt.
  { apply H; [apply list_elem_of_here|reflexivity]. }
  vm_compute in Hlt. lia.
Qed.

(** *** Conservation of flow *)

(** Without a shared value every row adds one to a cell between the first
    and the second stage, and one to a cell between the second and the
    third. *)
Lemma stage_weights data links :
  noSharedValue data →
  (∀ P, weight P links = flow (nodeMap data) P data) →
  weight (λ i j, stage1 data i && stage2 data j) links = length data ∧
  weight (λ i j, stage2 data i && stage3 data j) links = length data.
Proof.
  intros Hns Hw. pose proof (noSharedValue_NoDup data Hns) as Hnd.
  assert (∀ P, (∀ r, r ∈ data →
      ind (P (idx (nodeMap data) (salaryBin r))
             (idx (nodeMap data) (experienceLevel r)))
      + ind (P (idx (nodeMap data) (experienceLevel r))
               (idx (nodeMap data) (workType r))) = 1) →
      weight P links = length data) as Hone.
  { intros P HP. rewrite Hw. unfold flow.
    rewrite (sum_list_with_ext_in _ (λ _, 1)) by done.
    apply sum_list_with_one. }
  split; apply Hone; intros r Hr;
    destruct (idx_stages data r Hnd Hr)
      as (a & p & c & -> & Ha & -> & Hp & -> & Hc);
    apply lookup_lt_Some in Ha, Hp, Hc; unfold stage1, stage2, stage3;
    rewrite ?length_nodes; repeat case_bool_decide; simpl; lia.
Qed.

(** C4, with the proviso the script needs: when no value is shared between
    stages, the links from the first to the second stage weigh as much as
    there are rows, and so do the links from the second to the third.  A
    link is present exactly for the cells with a positive count, and its
    value is the number of rows that added to the cell. *)
Theorem flow_conserved_between_stages data :
  noSharedValue data →
  ∃ links,
    displaySankey data = Some (nodes data, links) ∧
    weight (λ i j, stage1 data i && stage2 data j) links = length data ∧
    weight (λ i j, stage2 data i && stage3 data j) links = length data ∧
    ∀ i j w, Link i j w ∈ links ↔
      i < length (nodes data) ∧ j < length (nodes data) ∧
      w = pairCount (nodeMap data) data i j ∧ 0 < w.
Proof.
  intros Hns.
  destruct (displaySankey_flow data) as (m & links & Hm & Hsq & Hdisp & Hlinks & Hw).
  exists links. split; [done|].
  destruct (stage_weights data links Hns Hw) as [H12 H23].
  split; [done|]. split; [done|].
  intros i j w. subst links. unfold linksOf.
  rewrite elem_of_linksOver, !elem_of_seq. simpl.
  assert (∀ i j, i < length (nodes data) → j < length (nodes data) →
                 cell m i j = pairCount (nodeMap data) data i j) as Hcell.
  { intros i' j' Hi' Hj'. unfold pairCount. rewrite <- Hw.
    unfold linksOf. rewrite weight_linksOver.
    symmetry. by apply cellSum_point. }
  split.
  - intros ([_ Hi] & [_ Hj] & -> & Hpos). rewrite Hcell in * by lia.
    repeat split; lia.
  - intros (Hi & Hj & -> & Hpos). rewrite Hcell by lia.
    repeat split; lia.
Qed.

Lemma flow_conserved_between_stages_witness :
  ∃ links,
    displaySankey sample = Some (nodes sample, links) ∧
    weight (λ i j, stage1 sample i && stage2 sample j) links = 3 ∧
    weight (λ i j, stage2 sample i && stage3 sample j) links = 3 ∧
    ∀ i j w, Link i j w ∈ links ↔
      i < 5 ∧ j < 5 ∧ w = pairCount (nodeMap sample) sample i j ∧ 0 < w.
Proof. apply (flow_conserved_between_stages sample sample_noSharedValue). Defined.

(** C4 as stated fails for a row whose salary bin and experience level are
    the same string: its first link is the loop at node 1, so no link goes
    from the first stage (node 0) to the second (node 1), though there is
    one row. *)
Lemma shared_value_breaks_conservation :
  displaySankey [Row "a" "a" "b"]
    = Some (["a"; "a"; "b"], [Link 1 1 1; Link 1 2 1]) ∧
  weight (λ i j, stage1 [Row "a" "a" "b"] i && stage2 [Row "a" "a" "b"] j)
    [Link 1 1 1; Link 1 2 1] = 0 ∧
  ¬ (∀ data links, displaySankey data = Some (nodes data, links) →
       weight (λ i j, stage1 data i && stage2 data j) links = length data).
Proof.
  split; [reflexivity|]. split; [reflexivity|].
  intros H.
  specialize (H [Row "a" "a" "b"] [Link 1 1 1; Link 1 2 1] eq_refl).
  vm_compute in H. discriminate.
Qed.

(** *** Balance of the middle stage *)

(** C10: when no value is shared between stages, the links that enter a node
    of the middle stage from the first stage and the links that leave it
    for the third stage both weigh as much as there are rows with that
    experience level. *)
Theorem middle_node_balanced data p v :
  noSharedValue data →
  experienceLevels data !! p = Some v →
  ∃ links,
    displaySankey data = Some (nodes data, links) ∧
    nodes data !! (length (salaryBins data) + p) = Some v ∧
    weight (λ i j, stage1 data i
                   && bool_decide (j = length (salaryBins data) + p)) links
      = length (filter (λ r, experienceLevel r = v) data) ∧
    weight (λ i j, bool_decide (i = length (salaryBins data) + p)
                   && stage3 data j) links
      = length (filter (λ r, experienceLevel r = v) data).
Proof.
  intros Hns Hv. pose proof (noSharedValue_NoDup data Hns) as Hnd.
  destruct (displaySankey_flow data) as (m & links & Hm & Hsq & Hdisp & Hlinks & Hw).
  exists links. split; [done|].
  assert (NoDup (experienceLevels data)) as Hnd2 by apply NoDup_setFrom.
  assert (∀ P, (∀ r, r ∈ data →
      ind (P (idx (nodeMap data) (salaryBin r))
             (idx (nodeMap data) (experienceLevel r)))
      + ind (P (idx (nodeMap data) (experienceLevel r))
               (idx (nodeMap data) (workType r)))
      = ind (bool_decide (experienceLevel r = v))) →
      weight P links = length (filter (λ r, experienceLevel r = v) data))
    as Hcount.
  { intros P HP. rewrite Hw. unfold flow.
    rewrite (sum_list_with_ext_in _ _ _ HP).
    apply (sum_list_with_count (λ r, experienceLevel r = v)). }
  assert (∀ r q, experienceLevels data !! q = Some (experienceLevel r) →
            bool_decide (length (salaryBins data) + q
                         = length (salaryBins data) + p)
            = bool_decide (experienceLevel r = v)) as Hsame.
  { intros r q Hq. apply bool_decide_ext. split.
    - intros Heq. assert (q = p) as -> by lia. congruence.
    - intros <-. f_equal. by eapply NoDup_lookup. }
  split; [|split].
  - unfold nodes. rewrite lookup_app_r by lia.
    replace (length (salaryBins data) + p - length (salaryBins data)) with p
      by lia.
    by apply lookup_app_l_Some.
  - apply Hcount. intros r Hr.
    destruct (idx_stages data r Hnd Hr) as (a & q & c & -> & Ha & -> & Hq & -> & Hc).
    apply lookup_lt_Some in Ha. apply lookup_lt_Some in Hc.
    pose proof (lookup_lt_Some _ _ _ Hq) as Hqlt.
    pose proof (lookup_lt_Some _ _ _ Hv) as Hplt.
    unfold stage1. rewrite (Hsame r q Hq).
    repeat case_bool_decide; simpl; lia.
  - apply Hcount. intros r Hr.
    destruct (idx_stages data r Hnd Hr) as (a & q & c & -> & Ha & -> & Hq & -> & Hc).
    apply lookup_lt_Some in Ha. apply lookup_lt_Some in Hc.
    pose proof (lookup_lt_Some _ _ _ Hq) as Hqlt.
    pose proof (lookup_lt_Some _ _ _ Hv) as Hplt.
    unfold stage3. rewrite (Hsame r q Hq), length_nodes.
    repeat case_bool_decide; simpl; lia.
Qed.

Lemma middle_node_balanced_witness :
  ∃ links,
    displaySankey sample = Some (nodes sample, links) ∧
    nodes sample !! 1 = Some "y" ∧
    weight (λ i j, stage1 sample i && bool_decide (j = 1)) links = 2 ∧
    weight (λ i j, bool_decide (i = 1) && stage3 sample j) links = 2.
Proof.
  apply (middle_node_balanced sample 0 "y" sample_noSharedValue).
  reflexivity.
Defined.

End SankeyFacts.

(** ** Facts about the rows made by [displayDashboard] *)
Module DashboardFacts.
Import Sankey SankeyFacts Dashboard.

Lemma binSalaries_label salary :
  binSalaries salary
  ∈ ["< 50k"; "50k-100k"; "100k-150k"; "150k-200k"; "200k+"].
Proof. unfold binSalaries. repeat case_decide; set_solver. Qed.

Lemma binWorkTypes_label remoteRatio :
  binWorkTypes remoteRatio ∈ ["in-office"; "hybrid"; "remote"].
Proof. unfold binWorkTypes. repeat case_decide; set_solver. Qed.

Lemma experienceLevelMap_label k level :
  experienceLevelMap !! k = Some level →
  level ∈ ["Senior"; "Mid Level"; "Entry Level"; "Executive"].
Proof.
  unfold experienceLevelMap. intros H.
  repeat (apply lookup_insert_Some in H as [[_ <-]|[_ H]]; [set_solver|]).
  apply lookup_singleton_Some in H as [_ <-]. set_solver.
Qed.

(** The labels of a row come from three lists with no label in common. *)
Lemma parallelRow_labels d r :
  parallelRow d = Some r →
  salaryBin r ∈ ["< 50k"; "50k-100k"; "100k-150k"; "150k-200k"; "200k+"] ∧
  experienceLevel r ∈ ["Senior"; "Mid Level"; "Entry Level"; "Executive"] ∧
  workType r ∈ ["in-office"; "hybrid"; "remote"].
Proof.
  unfold parallelRow. intros H.
  destruct (experienceLevelMap !! experience_level d) as [level|] eqn:Hl;
    [|done].
  injection H as <-. cbn [salaryBin experienceLevel workType].
  split; [apply binSalaries_label|]. split; [|apply binWorkTypes_label].
  by eapply experienceLevelMap_label.
Qed.

Lemma parallelData_noSharedValue salaryData data :
  parallelData salaryData = Some data → noSharedValue data.
Proof.
  unfold parallelData. intros H%mapM_Some.
  assert (Forall (λ r, ∃ d, parallelRow d = Some r) data) as Hall.
  { induction H; constructor; eauto. }
  rewrite Forall_forall in Hall.
  unfold noSharedValue.
  apply Forall_forall. intros r1 (d1 & (H1 & H2 & H3)%parallelRow_labels)%Hall.
  apply Forall_forall. intros r2 (d2 & (H4 & H5 & H6)%parallelRow_labels)%Hall.
  repeat (apply elem_of_cons in H1 as [->|H1]);
    try (by apply elem_of_nil in H1);
  repeat (apply elem_of_cons in H2 as [->|H2]);
    try (by apply elem_of_nil in H2);
  repeat (apply elem_of_cons in H5 as [->|H5]);
    try (by apply elem_of_nil in H5);
  repeat (apply elem_of_cons in H6 as [->|H6]);
    try (by apply elem_of_nil in H6);
  done.
Qed.

(** In the dashboard itself no label is shared between the stages, so the
    flow is conserved for every salary file whose experience levels are
    known: the links between two adjacent stages weigh as much as there are
    records. *)
Theorem dashboard_flow_conserved salaryData data :
  parallelData salaryData = Some data →
  ∃ links,
    displaySankey data = Some (nodes data, links) ∧
    weight (λ i j, stage1 data i && stage2 data j) links = length salaryData ∧
    weight (λ i j, stage2 data i && stage3 data j) links = length salaryData.
Proof.
  intros H. pose proof (parallelData_noSharedValue _ _ H) as Hns.
  assert (length data = length salaryData) as <-.
  { unfold parallelData in H. apply mapM_Some in H.
    symmetry. by eapply Forall2_length. }
  destruct (displaySankey_flow data) as (m & links & Hm & Hsq & Hdisp & Hl & Hw).
  exists links. split; [done|]. by apply stage_weights.
Qed.

Lemma dashboard_flow_conserved_witness :
  ∃ links,
    displaySankey [Row "50k-100k" "Senior" "remote";
                   Row "100k-150k" "Mid Level" "in-office"]
    = Some (nodes [Row "50k-100k" "Senior" "remote";
                   Row "100k-150k" "Mid Level" "in-office"], links) ∧
    weight (λ i j, stage1 [Row "50k-100k" "Senior" "remote";
                           Row "100k-150k" "Mid Level" "in-office"] i
                   && stage2 [Row "50k-100k" "Senior" "remote";
                              Row "100k-150k" "Mid Level" "in-office"] j)
      links = 2 ∧
    weight (λ i j, stage2 [Row "50k-100k" "Senior" "remote";
                           Row "100k-150k" "Mid Level" "in-office"] i
                   && stage3 [Row "50k-100k" "Senior" "remote";
                              Row "100k-150k" "Mid Level" "in-office"] j)
      links = 2.
Proof. apply (dashboard_flow_conserved salaryFile). by vm_compute. Defined.

End DashboardFacts.

(** ** Facts about the stacked bar chart *)
Module StackedBarFacts.
Import JS ListFacts JSFacts StackedBar.

(** *** [d3.group] *)
Section group.
Context {A : Type} (key : A → string).
Implicit Types (data : list A) (keys : list string).

(** The entry of the key [k] once the Map is complete. *)
Let entry (data : list A) (k : string) : string * list A :=
  (k, filter (λ d, key d = k) data).

Lemma group_snoc data d :
  group key (data ++ [d]) = groupPush (key d) d (group key data).
Proof. unfold group. by rewrite fold_left_app. Qed.

Lemma entry_snoc_ne data d k :
  key d ≠ k → entry (data ++ [d]) k = entry data k.
Proof.
  intros Hne. unfold entry. rewrite filter_app, filter_cons.
  destruct (decide (key d = k)); [done|]. by rewrite filter_nil, app_nil_r.
Qed.

Lemma groupPush_new data d keys :
  key d ∉ keys →
  groupPush (key d) d (entry data <$> keys)
  = (entry (data ++ [d]) <$> keys) ++ [(key d, [d])].
Proof.
  induction keys as [|k keys IH]; intros Hk; [done|].
  apply not_elem_of_cons in Hk as [Hne Hk].
  rewrite !fmap_cons. unfold entry at 1. cbn [groupPush].
  destruct (decide (k = key d)) as [|_]; [congruence|].
  rewrite IH by done. rewrite entry_snoc_ne by done. done.
Qed.

Lemma groupPush_old data d keys :
  NoDup keys → key d ∈ keys →
  groupPush (key d) d (entry data <$> keys) = entry (data ++ [d]) <$> keys.
Proof.
  induction 1 as [|k keys Hk Hnd IH]; [by intros ?%elem_of_nil|].
  intros Hd. rewrite !fmap_cons. unfold entry at 1. cbn [groupPush].
  destruct (decide (k = key d)) as [->|Hne].
  - f_equal.
    + unfold entry. rewrite filter_app, filter_cons.
      by destruct (decide (key d = key d)).
    + apply list_fmap_ext. intros i k' Hk'. symmetry.
      apply entry_snoc_ne. intros Heq. apply Hk. rewrite Heq.
      by eapply list_elem_of_lookup_2.
  - rewrite IH by set_solver. rewrite entry_snoc_ne by done. done.
Qed.

(** The Map has the keys in first-seen order, each with the data of
    that key in the order of the data. *)
Lemma group_entries data :
  group key data
  = (λ k, (k, filter (λ d, key d = k) data)) <$> setFrom (key <$> data).
Proof.
  change (group key data = entry data <$> setFrom (key <$> data)).
  induction data as [|d data IH] using rev_ind; [done|].
  rewrite group_snoc, IH, fmap_app. simpl.
  unfold setFrom at 2. rewrite fold_left_app. simpl.
  fold (setFrom (key <$> data)). unfold addNew.
  destruct (decide (key d ∈ setFrom (key <$> data))) as [Hin|Hout].
  - apply groupPush_old; [apply NoDup_setFrom|done].
  - rewrite groupPush_new, fmap_app by done. simpl. f_equal. f_equal.
    unfold entry. f_equal. rewrite filter_app, filter_cons.
    destruct (decide (key d = key d)); [|done].
    rewrite (filter_none (λ d', key d' = key d) data); [done|].
    apply Forall_forall. intros d' Hd' Heq. apply Hout.
    apply elem_of_setFrom. rewrite <- Heq. by apply list_elem_of_fmap_2.
Qed.

(** The groups share out the data. *)
Lemma sum_filter_keys data keys :
  NoDup keys → (∀ d, d ∈ data → key d ∈ keys) →
  sum_list_with (λ k, length (filter (λ d, key d = k) data)) keys
  = length data.
Proof.
  intros Hnd. induction data as [|d data IH]; intros Hin.
  - rewrite (sum_list_with_ext_in _ (λ _, 0)); [apply sum_list_with_zero|done].
  - cbn [length]. rewrite <- IH by set_solver. clear IH.
    assert (key d ∈ keys) as Hd by set_solver. clear Hin.
    induction Hnd as [|k keys Hk Hnd IHk]; [by apply elem_of_nil in Hd|].
    cbn [sum_list_with]. rewrite filter_cons.
    destruct (decide (key d = k)) as [Heq|Hne].
    + cbn [length].
      rewrite (sum_list_with_ext_in
                 (λ k', length (filter (λ d', key d' = k') (d :: data)))
                 (λ k', length (filter (λ d', key d' = k') data)));
        [lia|].
      intros k' Hk'. rewrite filter_cons.
      destruct (decide (key d = k')); [|done]. congruence.
    + rewrite IHk by set_solver. lia.
Qed.
End group.

(** *** Counting the leaves of a group *)

Lemma countLeaf_known c0 w0 leaf c :
  c0 !! Type_2 leaf = Some c →
  countLeaf (c0, w0) leaf = (<[Type_2 leaf := c + 1]> c0, w0).
Proof. intros H. unfold countLeaf. cbn [fst snd]. by rewrite H. Qed.

Lemma countLeaf_unknown c0 w0 leaf :
  c0 !! Type_2 leaf = None → countLeaf (c0, w0) leaf = (c0, w0 ++ [leaf]).
Proof. intros H. unfold countLeaf. cbn [fst snd]. by rewrite H. Qed.

Lemma fold_countLeaf leaves c0 w0 :
  (∀ s, (fold_left countLeaf leaves (c0, w0)).1 !! s
        = (λ n, n + length (filter (λ l, Type_2 l = s) leaves)) <$> c0 !! s) ∧
  (fold_left countLeaf leaves (c0, w0)).2
  = w0 ++ filter (λ l, c0 !! Type_2 l = None) leaves.
Proof.
  revert c0 w0. induction leaves as [|leaf leaves IH]; intros c0 w0.
  - split; [|by rewrite app_nil_r].
    intros s. simpl. destruct (c0 !! s); simpl; [f_equal; lia|done].
  - cbn [fold_left].
    destruct (c0 !! Type_2 leaf) as [c|] eqn:Hc.
    + rewrite (countLeaf_known _ _ _ _ Hc).
      destruct (IH (<[Type_2 leaf := c + 1]> c0) w0) as [IH1 IH2]. split.
      * intros s. rewrite IH1, filter_cons.
        destruct (decide (Type_2 leaf = s)) as [<-|Hne].
        -- rewrite lookup_insert_eq, Hc. simpl. f_equal. lia.
        -- by rewrite lookup_insert_ne.
      * rewrite IH2, filter_cons.
        destruct (decide (c0 !! Type_2 leaf = None)); [congruence|].
        f_equal. apply list_filter_iff. intros l.
        destruct (decide (Type_2 leaf = Type_2 l)) as [<-|Hne].
        -- rewrite lookup_insert_eq, Hc. done.
        -- by rewrite lookup_insert_ne.
    + rewrite (countLeaf_unknown _ _ _ Hc).
      destruct (IH c0 (w0 ++ [leaf])) as [IH1 IH2]. split.
      * intros s. rewrite IH1, filter_cons.
        destruct (decide (Type_2 leaf = s)) as [<-|Hne]; [|done].
        by rewrite Hc.
      * rewrite IH2, filter_cons.
        destruct (decide (c0 !! Type_2 leaf = None)); [|done].
        by rewrite <- app_assoc.
Qed.

(** The object a group is reduced to. *)
Lemma countLeaves_lookup secTypes leaves s :
  (countLeaves secTypes leaves).1 !! s
  = if decide (s = "total") then Some (length leaves)
    else if decide (s ∈ secTypes)
         then Some (length (filter (λ l, Type_2 l = s) leaves))
         else None.
Proof.
  unfold countLeaves. cbn [fst].
  destruct (decide (s = "total")) as [->|Hne]; [by rewrite lookup_insert_eq|].
  rewrite lookup_insert_ne by done.
  rewrite (proj1 (fold_countLeaf leaves _ _)), fromEntries_const.
  by destruct (decide (s ∈ secTypes)).
Qed.

Lemma countLeaves_warned secTypes leaves :
  (countLeaves secTypes leaves).2
  = filter (λ l, Type_2 l ∉ secTypes) leaves.
Proof.
  unfold countLeaves. cbn [snd].
  rewrite (proj2 (fold_countLeaf leaves _ _)). simpl.
  apply list_filter_iff. intros l. rewrite fromEntries_const.
  destruct (decide (Type_2 l ∈ secTypes)); naive_solver.
Qed.

Section with_locale.
Variable lc : string → string → Z.

Lemma secondaryTypes_Permutation data :
  secondaryTypes lc data ≡ₚ firstSeen (Type_2 <$> data).
Proof.
  unfold secondaryTypes. by rewrite sort_Permutation, setFrom_firstSeen.
Qed.

Lemma elem_of_secondaryTypes data s :
  s ∈ secondaryTypes lc data ↔ s ∈ Type_2 <$> data.
Proof. by rewrite secondaryTypes_Permutation, elem_of_firstSeen. Qed.

Lemma NoDup_secondaryTypes data : NoDup (secondaryTypes lc data).
Proof. rewrite secondaryTypes_Permutation. apply NoDup_firstSeen. Qed.

Lemma countsByType_entries data :
  countsByType lc data
  = (λ k, (k, countsOf lc data k)) <$> firstSeen (Type_1 <$> data).
Proof.
  unfold countsByType, rollup.
  rewrite group_entries, setFrom_firstSeen, <- !list_fmap_compose. done.
Qed.

Lemma countsOf_total data k :
  totalOf (countsOf lc data k) = length (filter (λ d, Type_1 d = k) data).
Proof.
  unfold totalOf, countsOf. rewrite countLeaves_lookup.
  by destruct (decide ("total" = "total")).
Qed.

(** Every secondary type of a leaf is a key of [counts]: nothing is
    reported. *)
Lemma warned_nil data : warned lc data = [].
Proof.
  unfold warned, rollup. rewrite group_entries.
  induction (setFrom (Type_1 <$> data)) as [|k keys IH]; [done|].
  rewrite !fmap_cons. cbn [mbind list_bind]. rewrite IH, app_nil_r.
  cbn [fst snd]. rewrite countLeaves_warned.
  apply filter_none, Forall_forall. intros l Hl Hout. apply Hout.
  apply elem_of_secondaryTypes, list_elem_of_fmap_2.
  by apply list_elem_of_filter in Hl as [_ ?].
Qed.

Lemma toObject_lookup k (c : gmap string nat) s :
  toObject (k, c) !! s
  = match c !! s with
    | Some n => Some (Num n)
    | None => if decide (s = "primaryType") then Some (Str k) else None
    end.
Proof.
  unfold toObject. cbn [fst snd]. rewrite lookup_union, lookup_fmap.
  destruct (c !! s) as [n|]; simpl.
  - by destruct ({[ "primaryType" := Str k ]} !! s).
  - destruct (decide (s = "primaryType")) as [->|Hne].
    + by rewrite lookup_singleton_eq.
    + by rewrite lookup_singleton_ne.
Qed.

Lemma total_toObject k c : total (toObject (k, c)) = totalOf c.
Proof.
  unfold total, totalOf. rewrite toObject_lookup.
  destruct (c !! "total"); [done|].
  by destruct (decide ("total" = "primaryType")).
Qed.

Lemma elem_of_sortedEntries data e :
  e ∈ sortedEntries lc data ↔
  ∃ k, k ∈ Type_1 <$> data ∧ e = (k, countsOf lc data k).
Proof.
  unfold sortedEntries.
  rewrite sort_Permutation, countsByType_entries, list_elem_of_fmap.
  split.
  - intros (k & -> & Hk). apply (proj1 (elem_of_firstSeen _ _)) in Hk.
    by exists k.
  - intros (k & Hk & ->). exists k. by rewrite elem_of_firstSeen.
Qed.
End with_locale.

(** *** Totals *)

(** No record is ever left out, because the counted secondary types are
    those of the records themselves, and the totals of the groups add up to
    the number of records.  The total of a group is the sum of its counts
    by secondary type as long as no record has the secondary type "total",
    the name of the property that holds the total. *)
Theorem totals_consistent lc data :
  warned lc data = [] ∧
  sum_list_with total (sortedCountsArray lc data)
  = length data - length (warned lc data) ∧
  ("total" ∉ Type_2 <$> data →
   ∀ g, g ∈ sortedCountsArray lc data →
     total g = sum_list_with (subCount g) (secondaryTypes lc data)).
Proof.
  split; [apply warned_nil|]. split.
  - rewrite warned_nil. cbn [length]. rewrite Nat.sub_0_r.
    unfold sortedCountsArray, sortedEntries.
    rewrite sum_list_with_fmap, sort_Permutation, countsByType_entries.
    rewrite sum_list_with_fmap.
    rewrite (sum_list_with_ext_in _
      (λ k, length (filter (λ d, Type_1 d = k) data))).
    + apply sum_filter_keys; [apply NoDup_firstSeen|].
      intros d Hd. apply elem_of_firstSeen. by apply list_elem_of_fmap_2.
    + intros k _. by rewrite total_toObject, countsOf_total.
  - intros Htotal g Hg. unfold sortedCountsArray in Hg.
    apply list_elem_of_fmap in Hg as (e & -> & He).
    apply elem_of_sortedEntries in He as (k & Hk & ->).
    rewrite total_toObject, countsOf_total.
    rewrite (sum_list_with_ext_in _
      (λ s, length (filter (λ d, Type_2 d = s)
                      (filter (λ d, Type_1 d = k) data)))).
    + symmetry. apply sum_filter_keys; [apply NoDup_secondaryTypes|].
      intros d Hd. apply elem_of_secondaryTypes, list_elem_of_fmap_2.
      by apply list_elem_of_filter in Hd as [_ ?].
    + intros s Hs. unfold subCount, countsOf.
      rewrite toObject_lookup, countLeaves_lookup.
      destruct (decide (s = "total")) as [->|_].
      { exfalso. apply Htotal. by apply (elem_of_secondaryTypes lc). }
      by destruct (decide (s ∈ secondaryTypes lc data)).
Qed.

Lemma totals_consistent_witness :
  ("total" ∉ Type_2 <$> fireFireWater) ∧
  Forall (λ g, total g = sum_list_with (subCount g)
                           (secondaryTypes codeUnitCompare fireFireWater))
    (sortedCountsArray codeUnitCompare fireFireWater).
Proof.
  assert ("total" ∉ Type_2 <$> fireFireWater) as Hfree.
  { intros H. apply list_elem_of_fmap in H as (d & Hd & Hin).
    unfold fireFireWater in Hin.
    repeat (apply elem_of_cons in Hin as [->|Hin]; [discriminate Hd|]).
    by apply elem_of_nil in Hin. }
  split; [done|]. apply Forall_forall.
  apply (proj2 (proj2 (totals_consistent codeUnitCompare fireFireWater)) Hfree).
Defined.

(** C5: the total of a group is to be the sum of its counts by secondary
    type, and the script counts every leaf under its secondary type to
    that end; it loses a count when "total" is a secondary type.  The two
    records have the primary type "Fire", one with the secondary type
    "total".  The counts are None: 1 and total: 1, then
    [counts.total = leaves.length] writes 2 over the count of "total"; the
    counts by secondary type now add up to 3, the total is 2. *)
Lemma total_replaces_a_count :
  secondaryTypes codeUnitCompare fireTotalNone = ["None"; "total"] ∧
  sortedCountsArray codeUnitCompare fireTotalNone
  = [ {[ "primaryType" := Str "Fire"; "None" := Num 1; "total" := Num 2 ]} ] ∧
  ¬ (∀ lc data g, g ∈ sortedCountsArray lc data →
       total g = sum_list_with (subCount g) (secondaryTypes lc data)).
Proof.
  split; [reflexivity|]. split; [by vm_compute|].
  intros H.
  specialize (H codeUnitCompare fireTotalNone
    {[ "primaryType" := Str "Fire"; "None" := Num 1; "total" := Num 2 ]}).
  assert (2 = 3) as Habs; [|lia].
  apply H. apply list_elem_of_here.
Qed.

(** *** The keys of a group *)

(** Every element of [sortedCountsArray] is the object of one primary
    type [k]; its keys are all the secondary types of the data, and "total"
    and "primaryType", the same for every group.  Under a secondary type
    other than "total" it holds the number of records with the primary type
    [k] and that secondary type, which is an explicit 0 when there is
    none. *)
Theorem subcounts_keyed_by_all_secondary_types lc data g :
  g ∈ sortedCountsArray lc data →
  ∃ k, k ∈ Type_1 <$> data ∧
    g = toObject (k, countsOf lc data k) ∧
    dom g = list_to_set (secondaryTypes lc data) ∪ {[ "total"; "primaryType" ]} ∧
    (∀ s, s ∈ secondaryTypes lc data → ∃ n, g !! s = Some (Num n)) ∧
    (∀ s, s ∈ secondaryTypes lc data → s ≠ "total" →
       g !! s = Some (Num (length
                  (filter (λ d, Type_1 d = k ∧ Type_2 d = s) data)))).
Proof.
  intros Hg. unfold sortedCountsArray in Hg.
  apply list_elem_of_fmap in Hg as (e & -> & He).
  apply elem_of_sortedEntries in He as (k & Hk & ->).
  exists k. split; [done|]. split; [done|].
  assert (∀ s, toObject (k, countsOf lc data k) !! s
    = if decide (s = "total")
      then Some (Num (length (filter (λ d, Type_1 d = k) data)))
      else if decide (s ∈ secondaryTypes lc data)
           then Some (Num (length
                  (filter (λ d, Type_1 d = k ∧ Type_2 d = s) data)))
           else if decide (s = "primaryType") then Some (Str k) else None)
    as Hlookup.
  { intros s. rewrite toObject_lookup. unfold countsOf.
    rewrite countLeaves_lookup.
    destruct (decide (s = "total")); [done|].
    destruct (decide (s ∈ secondaryTypes lc data)); [|done].
    rewrite list_filter_filter. do 3 f_equal.
    apply list_filter_iff. naive_solver. }
  split; [|split].
  - apply set_eq. intros s.
    rewrite elem_of_dom, Hlookup, elem_of_union, elem_of_list_to_set.
    rewrite elem_of_union, !elem_of_singleton.
    destruct (decide (s = "total")); [naive_solver|].
    destruct (decide (s ∈ secondaryTypes lc data)); [naive_solver|].
    destruct (decide (s = "primaryType")); [naive_solver|].
    split; [by intros [? ?]|naive_solver].
  - intros s Hs. rewrite Hlookup.
    destruct (decide (s = "total")); [eauto|].
    destruct (decide (s ∈ secondaryTypes lc data)); [eauto|done].
  - intros s Hs Hne. rewrite Hlookup.
    destruct (decide (s = "total")); [done|].
    by destruct (decide (s ∈ secondaryTypes lc data)).
Qed.

Lemma subcounts_keyed_by_all_secondary_types_witness :
  ∃ k, k ∈ Type_1 <$> fireFireWater ∧
    ({[ "primaryType" := Str "Water"; "None" := Num 1; "Flying" := Num 0;
        "total" := Num 1 ]} : gmap string jsval)
    = toObject (k, countsOf codeUnitCompare fireFireWater k) ∧
    dom ({[ "primaryType" := Str "Water"; "None" := Num 1; "Flying" := Num 0;
            "total" := Num 1 ]} : gmap string jsval)
    = list_to_set (secondaryTypes codeUnitCompare fireFireWater)
      ∪ {[ "total"; "primaryType" ]} ∧
    (∀ s, s ∈ secondaryTypes codeUnitCompare fireFireWater →
       ∃ n, ({[ "primaryType" := Str "Water"; "None" := Num 1;
                "Flying" := Num 0; "total" := Num 1 ]} : gmap string jsval)
            !! s = Some (Num n)) ∧
    (∀ s, s ∈ secondaryTypes codeUnitCompare fireFireWater → s ≠ "total" →
       ({[ "primaryType" := Str "Water"; "None" := Num 1; "Flying" := Num 0;
           "total" := Num 1 ]} : gmap string jsval) !! s
       = Some (Num (length
           (filter (λ d, Type_1 d = k ∧ Type_2 d = s) fireFireWater)))).
Proof.
  apply (subcounts_keyed_by_all_secondary_types codeUnitCompare fireFireWater).
  apply (list_elem_of_lookup_2 _ 1). by vm_compute.
Defined.

(** C6: a combination that is not observed is to be an explicit 0, and the
    script sets every count to 0 to that end; the 0 is lost when "total" is
    a secondary type.  No record has the primary type "Water" and the
    secondary type "total", yet the object of "Water" holds 1 under
    "total": [counts.total = leaves.length] has written the total of the
    group over the count. *)
Lemma total_is_not_a_zero_entry :
  secondaryTypes codeUnitCompare fireWater = ["None"; "total"] ∧
  sortedCountsArray codeUnitCompare fireWater
  = [ {[ "primaryType" := Str "Fire"; "None" := Num 0; "total" := Num 1 ]};
      {[ "primaryType" := Str "Water"; "None" := Num 1; "total" := Num 1 ]} ] ∧
  ¬ (∀ lc data k s,
       k ∈ Type_1 <$> data → s ∈ secondaryTypes lc data →
       filter (λ d, Type_1 d = k ∧ Type_2 d = s) data = [] →
       toObject (k, countsOf lc data k) !! s = Some (Num 0)).
Proof.
  split; [reflexivity|]. split; [by vm_compute|].
  intros H. specialize (H codeUnitCompare fireWater "Water" "total").
  assert (toObject ("Water", countsOf codeUnitCompare fireWater "Water")
            !! "total" = Some (Num 0)) as Habs.
  { apply H; [| |reflexivity]; apply (list_elem_of_lookup_2 _ 1); reflexivity. }
  vm_compute in Habs. discriminate Habs.
Qed.

(** *** The order of the groups *)

(** C7, as the script has it.  The groups are in descending order of total.
    The sort only rearranges the entries of the Map, whose keys are the
    primary types in first-seen order, and it is stable: the groups with one
    total are in the order of the Map, that is, in the order in which their
    primary types first occur in the data. *)
Theorem groups_descending_stable lc data :
  StronglySorted (λ g1 g2, total g2 ≤ total g1) (sortedCountsArray lc data) ∧
  sortedEntries lc data ≡ₚ countsByType lc data ∧
  (countsByType lc data).*1 = firstSeen (Type_1 <$> data) ∧
  ∀ t, filter (λ g, total g = t) (sortedCountsArray lc data)
       = toObject <$> filter (λ e, totalOf e.2 = t) (countsByType lc data).
Proof.
  split; [|split; [|split]].
  - unfold sortedCountsArray, sortedEntries.
    apply (StronglySorted_fmap _
             (λ e1 e2 : string * gmap string nat, totalOf e2.2 ≤ totalOf e1.2)).
    + intros [k1 c1] [k2 c2]. by rewrite !total_toObject.
    + apply (sort_desc_sorted (λ e, totalOf e.2)).
  - apply sort_Permutation.
  - rewrite countsByType_entries, <- list_fmap_compose. apply list_fmap_id.
  - intros t. unfold sortedCountsArray, sortedEntries.
    rewrite filter_fmap.
    rewrite (list_filter_iff _ (λ e, totalOf e.2 = t));
      [|by intros [k c]; rewrite total_toObject].
    unfold byTotal. by rewrite (sort_desc_stable (λ e, totalOf e.2)).
Qed.

(** C7 as stated fails on ties.  "Water" and "Fire" both have one record
    and "Water" comes first in the data; the group of "Water" stays in front
    of the group of "Fire", which is the smaller name. *)
Lemma ties_keep_data_order :
  sortedCountsArray codeUnitCompare waterFire
  = [ {[ "primaryType" := Str "Water"; "None" := Num 1; "total" := Num 1 ]};
      {[ "primaryType" := Str "Fire"; "None" := Num 1; "total" := Num 1 ]} ] ∧
  String.compare "Water" "Fire" = Gt ∧
  ¬ (∀ lc data i g1 g2 k1 k2,
       sortedCountsArray lc data !! i = Some g1 →
       sortedCountsArray lc data !! S i = Some g2 →
       total g1 = total g2 →
       groupKey g1 = Some (Str k1) → groupKey g2 = Some (Str k2) →
       String.compare k1 k2 ≠ Gt).
Proof.
  split; [by vm_compute|]. split; [reflexivity|].
  intros H.
  apply (H codeUnitCompare waterFire 0
    {[ "primaryType" := Str "Water"; "None" := Num 1; "total" := Num 1 ]}
    {[ "primaryType" := Str "Fire"; "None" := Num 1; "total" := Num 1 ]}
    "Water" "Fire"); by vm_compute.
Qed.

End StackedBarFacts.

(** ** Facts about the ridgeline plot *)
Module RidgelineFacts.
Import Ridgeline.

(** *** [d3.mean] *)

Lemma fold_meanStep {A} (f : A → Qc) V c s :
  fold_left (meanStep f) V (c, s)
  = (c + length V, (s + foldr Qcplus 0 (f <$> V))%Qc).
Proof.
  revert c s. induction V as [|v V IH]; intros c s.
  - simpl. f_equal; [lia|ring].
  - cbn [fold_left]. unfold meanStep at 2. cbn [fst snd].
    rewrite IH, fmap_cons. cbn [foldr length]. f_equal; [lia|ring].
Qed.

(** The mean of a sample that is not empty: the sum over the count. *)
Lemma mean_nonempty {A} (f : A → Qc) V :
  V ≠ [] →
  mean V f = Some (foldr Qcplus 0 (f <$> V) / ofNat (length V))%Qc.
Proof.
  intros HV. unfold mean. rewrite fold_meanStep. cbn [fst snd].
  destruct (decide (0 + length V = 0)) as [H0|_].
  - destruct V; [done|]. simpl in H0. lia.
  - do 2 f_equal. ring.
Qed.

Lemma mean_empty {A} (f : A → Qc) : mean [] f = None.
Proof. done. Qed.

(** *** The kernel *)

(** [kernelEpanechnikov(k)] is the kernel of the spec with the bandwidth
    [k] worked in: [u ↦ k(u / k) / k]. *)
Lemma kernelEpanechnikov_scaled k u :
  kernelEpanechnikov k u = (epanechnikov (u / k) / k)%Qc.
Proof.
  unfold kernelEpanechnikov, epanechnikov.
  destruct (decide (Qcabs (u / k) ≤ 1)%Qc); [done|].
  unfold Qcdiv. ring.
Qed.

(** *** The estimate *)

(** C1: for a sample that is not empty and a positive bandwidth, the
    estimator returns one pair per query point, in the order of the query
    points, and the density at [x] is the mean over all sample values [v] of
    [kernel((x - v) / bandwidth) / bandwidth], for the Epanechnikov kernel
    of the chart and for every other kernel handed over with its bandwidth
    worked in. *)
Theorem density_is_mean_of_kernel values X (kernel : Qc → Qc) bandwidth :
  values ≠ [] → (0 < bandwidth)%Qc →
  kernelDensityEstimator (λ u, kernel (u / bandwidth) / bandwidth)%Qc X values
  = (λ x, (x, Some (specDensity values kernel bandwidth x))) <$> X ∧
  kernelDensityEstimator (kernelEpanechnikov bandwidth) X values
  = (λ x, (x, Some (specDensity values epanechnikov bandwidth x))) <$> X ∧
  length (kernelDensityEstimator (kernelEpanechnikov bandwidth) X values)
  = length X ∧
  (kernelDensityEstimator (kernelEpanechnikov bandwidth) X values).*1 = X.
Proof.
  intros Hne Hpos. unfold kernelDensityEstimator, specDensity.
  split; [|split; [|split]].
  - apply list_fmap_ext. intros _ x _. by rewrite mean_nonempty.
  - apply list_fmap_ext. intros _ x _. rewrite mean_nonempty by done.
    do 4 f_equal. apply list_fmap_ext. intros _ v _.
    apply kernelEpanechnikov_scaled.
  - by rewrite length_fmap.
  - rewrite <- list_fmap_compose. apply list_fmap_id.
Qed.

Lemma density_is_mean_of_kernel_witness :
  kernelDensityEstimator (kernelEpanechnikov (num 20)) sampleTicks sampleTotals
  = (λ x, (x, Some (specDensity sampleTotals epanechnikov (num 20) x)))
    <$> sampleTicks.
Proof.
  apply (density_is_mean_of_kernel sampleTotals sampleTicks epanechnikov
           (num 20)); [discriminate|reflexivity].
Defined.

(** *** Generations with fewer than two totals *)

(** C2, as the script has it: for a generation with fewer than two totals
    the function warns on the console, computes no density and draws no
    ridge, and returns; the chart goes on with the next generation. *)
Theorem few_points_warned_and_skipped est key genDataTotals rest out :
  length genDataTotals < 2 →
  drawRidge est key genDataTotals out
  = (Output (console out ++ [fewPoints key]) (ridges out), Returned) ∧
  drawRidges est ((key, genDataTotals) :: rest) out
  = drawRidges est rest (Output (console out ++ [fewPoints key]) (ridges out)).
Proof.
  intros Hlen.
  assert (drawRidge est key genDataTotals out
    = (Output (console out ++ [fewPoints key]) (ridges out), Returned)) as H.
  { unfold drawRidge. by destruct (decide (length genDataTotals < 2)). }
  split; [done|]. cbn [drawRidges fst snd]. by rewrite H.
Qed.

Lemma few_points_warned_and_skipped_witness :
  drawRidge (kde sampleTicks) "1" [num 500] (Output [] [])
  = (Output [fewPoints "1"] [], Returned) ∧
  drawRidges (kde sampleTicks) [("1", [num 500])] (Output [] [])
  = (Output [fewPoints "1"] [], Returned).
Proof.
  apply (few_points_warned_and_skipped (kde sampleTicks) "1" [num 500] []
           (Output [] [])).
  simpl. lia.
Defined.

(** C2 as stated fails: with one total for generation "1" the call returns
    after a warning, nothing is thrown, and the ridge of generation "2" is
    drawn all the same. *)
Lemma one_point_is_not_an_error :
  (let r := drawRidges (kde sampleTicks)
              [("1", [num 500]); ("2", [num 500; num 495])] (Output [] []) in
   console r.1
   = ["Generation 1 has less than 2 valid 'Total' data points. Skipping density."]
   ∧ (ridges r.1).*1 = ["2"] ∧ r.2 = Returned) ∧
  ¬ (∀ est key genDataTotals out,
       length genDataTotals < 2 →
       ∃ e, (drawRidge est key genDataTotals out).2 = Thrown e).
Proof.
  split; [by vm_compute|].
  intros H.
  destruct (H (kde sampleTicks) "1" [num 500] (Output [] [])) as [e He].
  - simpl. lia.
  - vm_compute in He. discriminate He.
Qed.

End RidgelineFacts.

(** ** Facts about the histogram *)
Module HistogramFacts.
Import ListFacts Histogram.

(** *** Pushing values into the bins *)

Lemma length_emptyBins lo hi tz : length (emptyBins lo hi tz) = S (length tz).
Proof. revert lo. induction tz as [|t tz IH]; intros lo; simpl; [done|]. by rewrite IH. Qed.

Lemma items_emptyBins lo hi tz : mjoin (items <$> emptyBins lo hi tz) = [].
Proof. revert lo. induction tz as [|t tz IH]; intros lo; simpl; [done|]. apply IH. Qed.

Lemma x0_emptyBins lo hi tz : x0 <$> emptyBins lo hi tz = lo :: tz.
Proof.
  revert lo. induction tz as [|t tz IH]; intros lo; [done|].
  cbn [emptyBins]. rewrite fmap_cons, IH. done.
Qed.

Lemma x1_emptyBins lo hi tz : x1 <$> emptyBins lo hi tz = tz ++ [hi].
Proof.
  revert lo. induction tz as [|t tz IH]; intros lo; [done|].
  cbn [emptyBins]. rewrite fmap_cons, IH. done.
Qed.

Lemma bisect_le tz x : bisect tz x ≤ length tz.
Proof. apply length_filter. Qed.

Lemma length_push i x bins : length (push i x bins) = length bins.
Proof. unfold push. destruct (bins !! i); [by rewrite length_insert|done]. Qed.

Lemma x0_push i x bins : x0 <$> push i x bins = x0 <$> bins.
Proof.
  unfold push. destruct (bins !! i) as [b|] eqn:Hb; [|done].
  rewrite list_fmap_insert. cbn [x0]. apply list_insert_id.
  by rewrite list_lookup_fmap, Hb.
Qed.

Lemma x1_push i x bins : x1 <$> push i x bins = x1 <$> bins.
Proof.
  unfold push. destruct (bins !! i) as [b|] eqn:Hb; [|done].
  rewrite list_fmap_insert. cbn [x1]. apply list_insert_id.
  by rewrite list_lookup_fmap, Hb.
Qed.

Lemma push_0 x b bins :
  push 0 x (b :: bins) = Bin (x0 b) (x1 b) (items b ++ [x]) :: bins.
Proof. done. Qed.

Lemma push_S i x b bins : push (S i) x (b :: bins) = b :: push i x bins.
Proof.
  unfold push. change ((b :: bins) !! S i) with (bins !! i).
  by destruct (bins !! i).
Qed.

(** A value pushed into a bin that exists is one more value in the bins. *)
Lemma items_push i x bins :
  i < length bins →
  mjoin (items <$> push i x bins) ≡ₚ x :: mjoin (items <$> bins).
Proof.
  revert i. induction bins as [|b bins IH]; intros i Hi; [simpl in Hi; lia|].
  destruct i as [|i].
  - rewrite push_0, !fmap_cons. cbn [mjoin list_join items].
    rewrite <- app_assoc. symmetry. apply Permutation_middle.
  - rewrite push_S, !fmap_cons. cbn [mjoin list_join].
    rewrite IH by (simpl in Hi; lia). symmetry. apply Permutation_middle.
Qed.

Section fold.
Variables (lo hi : Qc) (tz : list Qc).

Let step (bins : list bin) (x : Qc) : list bin :=
  if decide (lo ≤ x ∧ x ≤ hi)%Qc then push (bisect tz x) x bins else bins.

Lemma fold_push data bins :
  length bins = S (length tz) →
  length (fold_left step data bins) = S (length tz) ∧
  x0 <$> fold_left step data bins = x0 <$> bins ∧
  x1 <$> fold_left step data bins = x1 <$> bins ∧
  mjoin (items <$> fold_left step data bins)
  ≡ₚ mjoin (items <$> bins) ++ filter (λ v, (lo ≤ v ∧ v ≤ hi)%Qc) data.
Proof.
  revert bins. induction data as [|x data IH]; intros bins Hlen.
  - by rewrite filter_nil, app_nil_r.
  - cbn [fold_left]. rewrite filter_cons. unfold step at 2 4 6 8.
    destruct (decide (lo ≤ x ∧ x ≤ hi)%Qc) as [Hin|Hout].
    + destruct (IH (push (bisect tz x) x bins)) as (H1 & H2 & H3 & H4).
      { by rewrite length_push. }
      split; [done|]. rewrite H2, H3, x0_push, x1_push.
      split; [done|]. split; [done|].
      rewrite H4, items_push by (pose proof (bisect_le tz x); lia).
      by rewrite <- Permutation_middle.
    + by apply IH.
Qed.
End fold.

(** The bins of the generator: their bounds and their values. *)
Lemma histogram_bins lo hi thresholds data :
  let tz := popHigh hi (shiftLow lo thresholds) in
  length (histogram lo hi thresholds data) = S (length tz) ∧
  x0 <$> histogram lo hi thresholds data = lo :: tz ∧
  x1 <$> histogram lo hi thresholds data = tz ++ [hi] ∧
  mjoin (items <$> histogram lo hi thresholds data)
  ≡ₚ filter (λ v, (lo ≤ v ∧ v ≤ hi)%Qc) data.
Proof.
  intros tz. unfold histogram. fold tz.
  destruct (fold_push lo hi tz data (emptyBins lo hi tz))
    as (H1 & H2 & H3 & H4); [apply length_emptyBins|].
  rewrite x0_emptyBins in H2. rewrite x1_emptyBins in H3.
  rewrite items_emptyBins in H4. done.
Qed.

(** *** Thresholds in ascending order *)

Lemma shiftLow_sorted lo tz :
  StronglySorted Qclt tz → shiftLow lo tz = filter (λ t, (lo < t)%Qc) tz.
Proof.
  induction 1 as [|t tz Hs IH Ht]; [done|].
  cbn [shiftLow]. rewrite filter_cons.
  destruct (decide (t ≤ lo)%Qc) as [Hle|Hgt].
  - destruct (decide (lo < t)%Qc) as [Hlt|_]; [|done].
    exfalso. by apply (Qcle_not_lt _ _ Hle).
  - apply Qcnot_le_lt in Hgt.
    destruct (decide (lo < t)%Qc); [|done]. f_equal. symmetry.
    apply filter_all. eapply Forall_impl; [exact Ht|].
    intros u Hu. simpl in Hu. by etrans.
Qed.

Lemma popHigh_snoc_keep hi tz t :
  ¬ (hi < t)%Qc → popHigh hi (tz ++ [t]) = tz ++ [t].
Proof.
  intros Hle. unfold popHigh. rewrite reverse_snoc.
  destruct (decide (hi < t)%Qc); [done|].
  by rewrite reverse_cons, reverse_involutive.
Qed.

Lemma popHigh_snoc_drop hi tz t :
  (hi < t)%Qc → popHigh hi (tz ++ [t]) = popHigh hi tz.
Proof.
  intros Hlt. unfold popHigh. rewrite reverse_snoc.
  by destruct (decide (hi < t)%Qc).
Qed.

Lemma popHigh_sorted hi tz :
  StronglySorted Qclt tz → popHigh hi tz = filter (λ t, (t ≤ hi)%Qc) tz.
Proof.
  induction tz as [|t tz IH] using rev_ind; intros Hs; [done|].
  apply StronglySorted_app in Hs as (Hall & Hs & _).
  rewrite filter_app, filter_cons, filter_nil.
  destruct (decide (t ≤ hi)%Qc) as [Hle|Hgt].
  - rewrite popHigh_snoc_keep by (by apply Qcle_not_lt).
    f_equal. symmetry. apply filter_all, Forall_forall.
    intros u Hu. apply Qclt_le_weak. eapply Qclt_le_trans; [|exact Hle].
    apply Hall; [done|apply list_elem_of_here].
  - apply Qcnot_le_lt in Hgt.
    rewrite popHigh_snoc_drop, app_nil_r by done. by apply IH.
Qed.

(** The thresholds the generator keeps, for ascending ticks: the ticks
    above the lower end and not above the upper end of the domain. *)
Lemma thresholds_sorted lo hi tz :
  StronglySorted Qclt tz →
  popHigh hi (shiftLow lo tz) = filter (λ t, (lo < t ∧ t ≤ hi)%Qc) tz ∧
  StronglySorted Qclt (lo :: popHigh hi (shiftLow lo tz)).
Proof.
  intros Hs. rewrite shiftLow_sorted by done.
  rewrite popHigh_sorted by (by apply StronglySorted_filter).
  rewrite list_filter_filter.
  assert (filter (λ t, (t ≤ hi)%Qc ∧ (lo < t)%Qc) tz
          = filter (λ t, (lo < t ∧ t ≤ hi)%Qc) tz) as ->.
  { apply list_filter_iff. naive_solver. }
  split; [done|]. constructor; [by apply StronglySorted_filter|].
  apply Forall_forall. by intros t [[? ?] _]%list_elem_of_filter.
Qed.

(** *** The bins of the chart *)

Lemma sum_count_items bins :
  sum_list_with count bins = length (mjoin (items <$> bins)).
Proof.
  induction bins as [|b bins IH]; [done|].
  rewrite fmap_cons. cbn [sum_list_with mjoin list_join].
  rewrite length_app, IH. done.
Qed.

Lemma displayHistogram_nonempty ticks data :
  data ≠ [] →
  ∃ m, maxValue data = Some m ∧
    displayHistogram ticks data
    = Some (histogram 0%Qc (maxBinValue m)
              (ticks 0%Qc (maxBinValue m) HISTOGRAM_NUM_BINS) data).
Proof.
  intros Hne. destruct data as [|v data]; [done|].
  exists (fold_left larger data v). split; [done|]. done.
Qed.

(** C8: whatever the domain [[lo, hi]], the thresholds and the sample, the
    empty one too, the generator returns bins that hold exactly the values
    inside the domain, each in one bin.  The counts add up to the number of
    those values, which is the number of all values when every value lies
    in the domain; a value below [lo] or above [hi] is in no bin, so it is
    not moved to the first or the last bin, and the bins are returned all
    the same.  The bins of the chart are those of the domain
    [[0, maxBinValue]]. *)
Theorem counts_are_the_values_in_domain lo hi thresholds data :
  mjoin (items <$> histogram lo hi thresholds data)
  ≡ₚ filter (λ v, (lo ≤ v ∧ v ≤ hi)%Qc) data ∧
  sum_list_with count (histogram lo hi thresholds data)
  = length (filter (λ v, (lo ≤ v ∧ v ≤ hi)%Qc) data) ∧
  (Forall (λ v, (lo ≤ v ∧ v ≤ hi)%Qc) data →
   sum_list_with count (histogram lo hi thresholds data) = length data) ∧
  (∀ v, (v < lo ∨ hi < v)%Qc →
        Forall (λ b, v ∉ items b) (histogram lo hi thresholds data)) ∧
  length (histogram lo hi thresholds data)
  = S (length (popHigh hi (shiftLow lo thresholds))) ∧
  (∀ ticks m, maxValue data = Some m →
     displayHistogram ticks data
     = Some (histogram 0%Qc (maxBinValue m)
               (ticks 0%Qc (maxBinValue m) HISTOGRAM_NUM_BINS) data)).
Proof.
  destruct (histogram_bins lo hi thresholds data) as (Hlen & _ & _ & Hitems).
  split; [done|]. split; [|split; [|split; [|split]]].
  - by rewrite sum_count_items, Hitems.
  - intros Hall. rewrite sum_count_items, Hitems. by rewrite filter_all.
  - intros v Hv. apply Forall_forall. intros b Hb Hin.
    assert (v ∈ mjoin (items <$> histogram lo hi thresholds data)) as Hjoin.
    { apply list_elem_of_join. exists (items b). split; [done|].
      by apply list_elem_of_fmap_2. }
    rewrite Hitems in Hjoin.
    apply list_elem_of_filter in Hjoin as [[Hlo Hhi] _].
    destruct Hv as [Hv|Hv].
    + by apply (Qclt_not_le _ _ Hv).
    + by apply (Qclt_not_le _ _ Hv).
  - exact Hlen.
  - intros ticks m Hm. unfold displayHistogram. by rewrite Hm.
Qed.

(** Over the domain [[0, 100]] three of the six salaries are counted: 120
    and 124 lie above the domain, -3 below it. *)
Lemma counts_are_the_values_in_domain_witness :
  sum_list_with count
    (histogram 0%Qc (num 100) (d3ticks 0%Qc (num 100) HISTOGRAM_NUM_BINS)
       someSalaries)
  = length (filter (λ v, (0 ≤ v ∧ v ≤ num 100)%Qc) someSalaries) ∧
  length (filter (λ v, (0 ≤ v ∧ v ≤ num 100)%Qc) someSalaries) = 3 ∧
  length someSalaries = 6.
Proof.
  split; [|split; reflexivity].
  apply (counts_are_the_values_in_domain 0%Qc (num 100)
           (d3ticks 0%Qc (num 100) HISTOGRAM_NUM_BINS) someSalaries).
Defined.

(** C9, as the script has it.  The bins of a sample that is not empty are
    contiguous: the first starts at 0, the last ends at [maxBinValue], and
    each bin ends where the next starts.  The bounds between them are the
    ticks of the scale that the generator keeps; for ascending ticks these
    are the ticks above 0 and not above [maxBinValue], the bins are in
    ascending order of their lower bound and do not overlap. *)
Theorem bins_contiguous_between_ticks ticks data :
  data ≠ [] →
  ∃ m bins,
    maxValue data = Some m ∧
    displayHistogram ticks data = Some bins ∧
    x0 <$> bins
    = 0%Qc :: popHigh (maxBinValue m)
                (shiftLow 0%Qc (ticks 0%Qc (maxBinValue m) HISTOGRAM_NUM_BINS)) ∧
    x1 <$> bins
    = popHigh (maxBinValue m)
        (shiftLow 0%Qc (ticks 0%Qc (maxBinValue m) HISTOGRAM_NUM_BINS))
      ++ [maxBinValue m] ∧
    (∀ i b b', bins !! i = Some b → bins !! S i = Some b' → x1 b = x0 b') ∧
    (StronglySorted Qclt (ticks 0%Qc (maxBinValue m) HISTOGRAM_NUM_BINS) →
     x0 <$> bins
     = 0%Qc :: filter (λ t, (0 < t ∧ t ≤ maxBinValue m)%Qc)
                 (ticks 0%Qc (maxBinValue m) HISTOGRAM_NUM_BINS) ∧
     StronglySorted Qclt (x0 <$> bins) ∧
     ∀ i j b b', i < j → bins !! i = Some b → bins !! j = Some b' →
                 (x1 b ≤ x0 b')%Qc).
Proof.
  intros Hne. destruct (displayHistogram_nonempty ticks data Hne) as (m & Hm & Hd).
  set (tk := ticks 0%Qc (maxBinValue m) HISTOGRAM_NUM_BINS) in *.
  set (bins := histogram 0%Qc (maxBinValue m) tk data) in *.
  exists m, bins. split; [done|]. split; [done|].
  destruct (histogram_bins 0%Qc (maxBinValue m) tk data) as (Hlen & Hx0 & Hx1 & _).
  fold bins in Hlen, Hx0, Hx1.
  set (tz := popHigh (maxBinValue m) (shiftLow 0%Qc tk)) in *.
  assert (∀ i b b', bins !! i = Some b → bins !! S i = Some b' → x1 b = x0 b')
    as Hnext.
  { intros i b b' Hb Hb'.
    assert ((x1 <$> bins) !! i = Some (x1 b)) as H1
      by (by rewrite list_lookup_fmap, Hb).
    assert ((x0 <$> bins) !! S i = Some (x0 b')) as H0
      by (by rewrite list_lookup_fmap, Hb').
    rewrite Hx1 in H1. rewrite Hx0 in H0.
    change ((0%Qc :: tz) !! S i) with (tz !! i) in H0.
    apply lookup_lt_Some in Hb'. rewrite Hlen in Hb'.
    rewrite lookup_app_l in H1 by lia. congruence. }
  split; [done|]. split; [done|]. split; [done|].
  intros Hsorted.
  destruct (thresholds_sorted 0%Qc (maxBinValue m) tk Hsorted) as [Htz Hs].
  fold tz in Htz, Hs. split; [by rewrite Hx0, Htz|].
  split; [by rewrite Hx0|].
  intros i j b b' Hij Hb Hb'.
  destruct (lookup_lt_is_Some_2 bins (S i)) as [c Hc].
  { apply lookup_lt_Some in Hb'. lia. }
  rewrite (Hnext i b c Hb Hc).
  destruct (decide (S i = j)) as [<-|Hne'].
  { assert (c = b') as -> by congruence. apply Qcle_refl. }
  apply Qclt_le_weak.
  rewrite <- Hx0 in Hs.
  apply (StronglySorted_lookup_lt Qclt (x0 <$> bins) (S i) j);
    [done|lia|by rewrite list_lookup_fmap, Hc|by rewrite list_lookup_fmap, Hb'].
Qed.

(** *** The domain of the chart *)

Lemma larger_fold data v :
  (v ≤ fold_left larger data v)%Qc ∧
  Forall (λ x, (x ≤ fold_left larger data v)%Qc) data.
Proof.
  revert v. induction data as [|x data IH]; intros v.
  - split; [apply Qcle_refl|constructor].
  - cbn [fold_left]. destruct (IH (larger v x)) as [H1 H2].
    assert (v ≤ larger v x ∧ x ≤ larger v x)%Qc as [Hv Hx].
    { unfold larger. destruct (decide (v < x)%Qc) as [Hlt|Hge].
      - split; [by apply Qclt_le_weak|apply Qcle_refl].
      - split; [apply Qcle_refl|by apply Qcnot_lt_le]. }
    split; [by eapply Qcle_trans|].
    constructor; [by eapply Qcle_trans|done].
Qed.

Lemma maxValue_upper data m :
  maxValue data = Some m → Forall (λ v, (v ≤ m)%Qc) data.
Proof.
  destruct data as [|v data]; [done|]. cbn [maxValue]. intros [= <-].
  destruct (larger_fold data v) as [H1 H2]. by constructor.
Qed.

(** A maximum that is not negative lies in the domain it gives. *)
Lemma maxBinValue_upper m : (0 ≤ m)%Qc → (m ≤ maxBinValue m)%Qc.
Proof.
  intros Hm. unfold maxBinValue.
  change (Z.of_nat (HISTOGRAM_NUM_BINS + 1)) with 31%Z.
  change (ofNat HISTOGRAM_NUM_BINS) with (num 30).
  unfold Qcle in *. unfold num at 1. cbn [this Q2Qc].
  rewrite Qred_correct.
  pose proof (Qle_ceiling (m / num 30)%Qc) as Hc.
  assert (this (m / num 30)%Qc == this m / 30)%Q as Heq.
  { unfold Qcdiv, Qcmult, Qcinv, num. cbn [this Q2Qc].
    rewrite !Qred_correct. reflexivity. }
  set (c := Qceiling (m / num 30)%Qc) in *.
  assert (this m / 30 <= inject_Z c)%Q as Hc' by (rewrite <- Heq; exact Hc).
  assert (this m <= inject_Z (30 * c))%Q as H30.
  { apply (Qmult_le_compat_r _ _ 30) in Hc'; [|discriminate].
    rewrite inject_Z_mult, (Qmult_comm (inject_Z 30)).
    eapply Qle_trans; [|exact Hc'].
    unfold Qdiv. rewrite <- Qmult_assoc. rewrite (Qmult_comm (/ 30)).
    rewrite Qmult_inv_r by discriminate. rewrite Qmult_1_r. apply Qle_refl. }
  assert (0 <= 30 * c)%Z as Hc0.
  { rewrite Zle_Qle. eapply Qle_trans; [exact Hm|exact H30]. }
  eapply Qle_trans; [exact H30|].
  rewrite <- Zle_Qle. lia.
Qed.

(** No value lies above the domain when the maximum is not negative: the
    values that are not negative are all counted. *)
Theorem nonnegative_values_all_counted ticks data :
  data ≠ [] → Forall (λ v, (0 ≤ v)%Qc) data →
  ∃ bins,
    displayHistogram ticks data = Some bins ∧
    sum_list_with count bins = length data.
Proof.
  intros Hne Hpos.
  destruct (displayHistogram_nonempty ticks data Hne) as (m & Hm & Hd).
  eexists. split; [exact Hd|].
  destruct (histogram_bins 0%Qc (maxBinValue m)
              (ticks 0%Qc (maxBinValue m) HISTOGRAM_NUM_BINS) data)
    as (_ & _ & _ & Hitems).
  rewrite sum_count_items, Hitems. f_equal. apply filter_all.
  pose proof (maxValue_upper data m Hm) as Hup.
  assert (0 ≤ m)%Qc as Hm0.
  { destruct data as [|v data]; [done|].
    apply Forall_cons in Hpos as [Hv _]. apply Forall_cons in Hup as [Hvm _].
    by eapply Qcle_trans. }
  rewrite Forall_forall in Hpos, Hup. apply Forall_forall. intros v Hv.
  split; [by apply Hpos|].
  eapply Qcle_trans; [by apply Hup|]. by apply maxBinValue_upper.
Qed.

Lemma nonnegative_values_all_counted_witness :
  ∃ bins,
    displayHistogram d3ticks oneSalary = Some bins ∧
    sum_list_with count bins = 1.
Proof.
  apply (nonnegative_values_all_counted d3ticks oneSalary); [discriminate|].
  repeat constructor. discriminate.
Defined.

(** *** The ticks of the library are in ascending order *)

Lemma num_lt x y : (x < y)%Z → (num x < num y)%Qc.
Proof.
  intros H. unfold Qclt, num. cbn [this Q2Qc].
  rewrite !Qred_correct. by rewrite <- Zlt_Qlt.
Qed.

Lemma seq_sorted a n : StronglySorted lt (seq a n).
Proof.
  revert a. induction n as [|n IH]; intros a; [constructor|].
  cbn [seq]. constructor; [apply IH|].
  apply Forall_forall. intros i [? _]%elem_of_seq. lia.
Qed.

Lemma Qcdiv_neg_lt x y z : (z < 0)%Qc → (y < x)%Qc → (x / z < y / z)%Qc.
Proof.
  intros Hz Hxy. apply Qclt_minus_iff.
  assert (z ≠ 0%Qc) as Hz0.
  { intros ->. by apply (Qclt_not_eq _ _ Hz). }
  assert (- z ≠ 0)%Qc as Hz1.
  { intros H. apply Hz0. replace z with (- - z)%Qc by ring. rewrite H. ring. }
  replace (y / z + - (x / z))%Qc with ((x - y) * / - z)%Qc by (by field).
  apply Qcmult_pos_pos.
  - apply Qclt_minus_iff in Hxy. by replace (x - y)%Qc with (x + - y)%Qc by ring.
  - apply Qcinv_pos. apply Qclt_minus_iff in Hz.
    by replace (- z)%Qc with (0 + - z)%Qc by ring.
Qed.

Lemma ticksUp_sorted start stop count :
  StronglySorted Qclt (ticksUp start stop count).
Proof.
  unfold ticksUp.
  destruct (decide (0 < tickIncrement start stop count)%Qc) as [Hpos|_].
  - apply (StronglySorted_fmap _ lt); [|apply seq_sorted].
    intros i j Hij. apply Qcmult_lt_compat_r; [done|]. apply num_lt. lia.
  - destruct (decide (tickIncrement start stop count < 0)%Qc) as [Hneg|_];
      [|constructor].
    apply (StronglySorted_fmap _ lt); [|apply seq_sorted].
    intros i j Hij. apply Qcdiv_neg_lt; [done|]. apply num_lt. lia.
Qed.

(** The ticks over a domain that starts at 0 and does not end below it. *)
Lemma d3ticks_sorted hi count :
  (0 ≤ hi)%Qc → StronglySorted Qclt (d3ticks 0%Qc hi count).
Proof.
  intros Hhi. unfold d3ticks.
  destruct (decide (0%Qc = hi)); [repeat constructor|].
  destruct (decide (hi < 0)%Qc) as [Hlt|_]; [|apply ticksUp_sorted].
  exfalso. by apply (Qcle_not_lt _ _ Hhi).
Qed.

(** With the ticks of the library, the bins of a sample whose maximum is
    not negative are in ascending order of their lower bound, the bounds
    between them being the ticks above 0 and not above [maxBinValue]. *)
Theorem bins_ascending_with_library_ticks data m :
  maxValue data = Some m → (0 ≤ m)%Qc →
  ∃ bins,
    displayHistogram d3ticks data = Some bins ∧
    x0 <$> bins
    = 0%Qc :: filter (λ t, (0 < t ∧ t ≤ maxBinValue m)%Qc)
                (d3ticks 0%Qc (maxBinValue m) HISTOGRAM_NUM_BINS) ∧
    x1 <$> bins
    = filter (λ t, (0 < t ∧ t ≤ maxBinValue m)%Qc)
        (d3ticks 0%Qc (maxBinValue m) HISTOGRAM_NUM_BINS)
      ++ [maxBinValue m] ∧
    StronglySorted Qclt (x0 <$> bins).
Proof.
  intros Hm Hm0.
  assert (StronglySorted Qclt (d3ticks 0%Qc (maxBinValue m) HISTOGRAM_NUM_BINS))
    as Hsorted.
  { apply d3ticks_sorted. eapply Qcle_trans; [exact Hm0|].
    by apply maxBinValue_upper. }
  exists (histogram 0%Qc (maxBinValue m)
            (d3ticks 0%Qc (maxBinValue m) HISTOGRAM_NUM_BINS) data).
  split; [unfold displayHistogram; by rewrite Hm|].
  destruct (histogram_bins 0%Qc (maxBinValue m)
              (d3ticks 0%Qc (maxBinValue m) HISTOGRAM_NUM_BINS) data)
    as (_ & Hx0 & Hx1 & _).
  destruct (thresholds_sorted 0%Qc (maxBinValue m) _ Hsorted) as [Htz Hs].
  rewrite Hx0, Hx1, Htz. split; [done|]. split; [done|]. by rewrite <- Htz.
Qed.

Lemma bins_ascending_with_library_ticks_witness :
  ∃ bins,
    displayHistogram d3ticks oneSalary = Some bins ∧
    x0 <$> bins
    = 0%Qc :: filter (λ t, (0 < t ∧ t ≤ maxBinValue (num 100))%Qc)
                (d3ticks 0%Qc (maxBinValue (num 100)) HISTOGRAM_NUM_BINS) ∧
    x1 <$> bins
    = filter (λ t, (0 < t ∧ t ≤ maxBinValue (num 100))%Qc)
        (d3ticks 0%Qc (maxBinValue (num 100)) HISTOGRAM_NUM_BINS)
      ++ [maxBinValue (num 100)] ∧
    StronglySorted Qclt (x0 <$> bins).
Proof.
  apply (bins_ascending_with_library_ticks oneSalary (num 100));
    [reflexivity|discriminate].
Defined.

Lemma bins_contiguous_between_ticks_witness :
  ∃ m bins,
    maxValue oneSalary = Some m ∧
    displayHistogram d3ticks oneSalary = Some bins ∧
    x0 <$> bins
    = 0%Qc :: popHigh (maxBinValue m)
                (shiftLow 0%Qc (d3ticks 0%Qc (maxBinValue m) HISTOGRAM_NUM_BINS)) ∧
    x1 <$> bins
    = popHigh (maxBinValue m)
        (shiftLow 0%Qc (d3ticks 0%Qc (maxBinValue m) HISTOGRAM_NUM_BINS))
      ++ [maxBinValue m] ∧
    (∀ i b b', bins !! i = Some b → bins !! S i = Some b' → x1 b = x0 b') ∧
    (StronglySorted Qclt (d3ticks 0%Qc (maxBinValue m) HISTOGRAM_NUM_BINS) →
     x0 <$> bins
     = 0%Qc :: filter (λ t, (0 < t ∧ t ≤ maxBinValue m)%Qc)
                 (d3ticks 0%Qc (maxBinValue m) HISTOGRAM_NUM_BINS) ∧
     StronglySorted Qclt (x0 <$> bins) ∧
     ∀ i j b b', i < j → bins !! i = Some b → bins !! j = Some b' →
                 (x1 b ≤ x0 b')%Qc).
Proof.
  apply (bins_contiguous_between_ticks d3ticks oneSalary). discriminate.
Defined.

(** C9 as stated fails on the width and the number of the bins.  For the
    one salary 100 the domain is [[0, 124]] and the ticks of the scale are
    the multiples of 5: there are 25 bins, not 30; the first 24 are 5 wide
    and the last one, from 120 to 124, is 4 wide; none has the width
    124 / 30. *)
Lemma bins_follow_the_ticks :
  (λ bins : list bin, (λ b : bin, (this (x0 b), this (x1 b))) <$> bins)
    <$> displayHistogram d3ticks oneSalary
  = Some [(0, 5); (5, 10); (10, 15); (15, 20); (20, 25); (25, 30); (30, 35);
          (35, 40); (40, 45); (45, 50); (50, 55); (55, 60); (60, 65);
          (65, 70); (70, 75); (75, 80); (80, 85); (85, 90); (90, 95);
          (95, 100); (100, 105); (105, 110); (110, 115); (115, 120);
          (120, 124)]%Q ∧
  ¬ (∀ data m bins b,
       maxValue data = Some m → displayHistogram d3ticks data = Some bins →
       b ∈ bins →
       (x1 b - x0 b)%Qc = (maxBinValue m / ofNat HISTOGRAM_NUM_BINS)%Qc).
Proof.
  split; [by vm_compute|].
  intros H.
  specialize (H oneSalary (num 100)
    (default [] (displayHistogram d3ticks oneSalary))
    (default (Bin 0%Qc 0%Qc [])
       (head (default [] (displayHistogram d3ticks oneSalary))))).
  assert (this (x1 (default (Bin 0%Qc 0%Qc [])
                   (head (default [] (displayHistogram d3ticks oneSalary))))
                - x0 (default (Bin 0%Qc 0%Qc [])
                   (head (default [] (displayHistogram d3ticks oneSalary)))))%Qc
          = this (maxBinValue (num 100) / ofNat HISTOGRAM_NUM_BINS)%Qc) as Habs.
  { f_equal. apply H.
    - reflexivity.
    - by vm_compute.
    - apply (list_elem_of_lookup_2 _ 0). by vm_compute. }
  vm_compute in Habs. discriminate Habs.
Qed.

End HistogramFacts.

(** ** What the Sankey construction keeps for every data set *)
Module SankeyInvariants.
Import JS ListFacts JSFacts Sankey SankeyFacts.

Lemma NoDup_row m i tgts :
  NoDup tgts →
  NoDup (tgts ≫= λ j,
    if decide (0 < cell m i j) then [Link i j (cell m i j)] else []).
Proof.
  induction 1 as [|j tgts Hj Hnd IH]; [constructor|].
  change ((j :: tgts) ≫= ?f) with (f j ++ (tgts ≫= f)). cbn beta.
  destruct (decide (0 < cell m i j)); [|done].
  cbn [app]. constructor; [|done].
  intros (j' & Hl & Hj')%list_elem_of_bind.
  destruct (decide (0 < cell m i j')); [|by apply elem_of_nil in Hl].
  apply list_elem_of_singleton in Hl. congruence.
Qed.

Lemma NoDup_linksOver srcs tgts m :
  NoDup srcs → NoDup tgts → NoDup (linksOver srcs tgts m).
Proof.
  intros Hs Ht. induction Hs as [|i srcs Hi Hnd IH]; [constructor|].
  rewrite linksOver_cons. apply NoDup_app. split; [by apply NoDup_row|].
  split; [|done].
  intros l (j & Hl & Hj)%list_elem_of_bind Hrest.
  destruct (decide (0 < cell m i j)); [|by apply elem_of_nil in Hl].
  apply list_elem_of_singleton in Hl as ->.
  apply elem_of_linksOver in Hrest as (Hsrc & _). by simpl in Hsrc.
Qed.


(** Whatever the data: the links handed to the layout name nodes that
    exist, weigh at least one, and no link occurs twice; the weight of a
    link is the number of steps of rows between its two nodes. *)
Theorem links_name_existing_nodes data :
  ∃ links,
    displaySankey data = Some (nodes data, links) ∧
    NoDup links ∧
    Forall (λ l, source l < length (nodes data) ∧
                 target l < length (nodes data) ∧
                 0 < value l ∧
                 value l = pairCount (nodeMap data) data (source l) (target l))
      links.
Proof.
  destruct (displaySankey_flow data) as (m & links & _ & _ & Hdisp & Hl & Hw).
  exists links. split; [done|]. subst links. unfold linksOf. split.
  - apply NoDup_linksOver; apply NoDup_seq.
  - apply Forall_forall. intros l Hin.
    apply elem_of_linksOver in Hin as (Hs & Ht & Hv & Hpos).
    apply elem_of_seq in Hs as [_ Hs]. apply elem_of_seq in Ht as [_ Ht].
    simpl in Hs, Ht. repeat split; [done..|].
    rewrite Hv. unfold pairCount. rewrite <- Hw. unfold linksOf.
    rewrite weight_linksOver. symmetry. by apply cellSum_point.
Qed.

End SankeyInvariants.

(** ** Where the histogram puts a value *)
Module HistogramMembership.
Import ListFacts Histogram HistogramFacts.



Section fold.
Variables (lo hi : Qc) (tz : list Qc).

Let step (bins : list bin) (x : Qc) : list bin :=
  if decide (lo ≤ x ∧ x ≤ hi)%Qc then push (bisect tz x) x bins else bins.

End fold.





End HistogramMembership.

(** ** The shape of the density and the ridges that are drawn *)
Module RidgelineBounds.
Import ListFacts Ridgeline RidgelineFacts.

(** Order facts on [Qc] are settled on the underlying fractions. *)
Ltac qc2q :=
  unfold Qcle, Qclt, Qcminus in *;
  cbn [this Qcplus Qcmult Qcopp Q2Qc] in *;
  repeat (match goal with
          | H : context [Qred _] |- _ => setoid_rewrite Qred_correct in H
          | |- context [Qred _] => setoid_rewrite Qred_correct
          end).

Lemma Qc_eq_Q (x y : Qc) : x = y → (this x == this y)%Q.
Proof. by intros ->. Qed.

Lemma Qcabs_lt_condition x y : (Qcabs x < y)%Qc ↔ (- y < x ∧ x < y)%Qc.
Proof.
  apply (Qcabs_case x (λ a, (a < y)%Qc ↔ (- y < x ∧ x < y)%Qc));
    intros Hx; split; intros H; qc2q; lra.
Qed.

Lemma Qclt_neq_0 k : (0 < k)%Qc → k ≠ 0%Qc.
Proof. intros Hk ->. by apply (Qclt_not_eq _ _ Hk). Qed.

Lemma ofNat_pos n : 0 < n → (0 < ofNat n)%Qc.
Proof.
  intros Hn. change 0%Qc with (num 0). apply HistogramFacts.num_lt. lia.
Qed.

(** *** The kernel *)

Section kernel.
Variable k : Qc.
Hypothesis k_pos : (0 < k)%Qc.

Lemma kernel_cases u :
  ∃ v ik, (v * k = u ∧ ik * k = 1)%Qc ∧
    kernelEpanechnikov k u
    = if decide (- (1) ≤ v ∧ v ≤ 1)%Qc
      then (Q2Qc (3 # 4) * (1 - v * v) * ik)%Qc else 0%Qc.
Proof.
  pose proof (Qclt_neq_0 k k_pos) as Hk.
  exists (u / k)%Qc, (/ k)%Qc. split; [split; by field|].
  unfold kernelEpanechnikov.
  destruct (decide (Qcabs (u / k) ≤ 1)%Qc) as [H|H];
    rewrite Qcabs_Qcle_condition in H.
  - by rewrite decide_True.
  - by rewrite decide_False.
Qed.

Lemma kernel_nonneg u : (0 ≤ kernelEpanechnikov k u)%Qc.
Proof.
  destruct (kernel_cases u) as (v & ik & [Hv Hik] & ->).
  assert (0 < Q2Qc (3 # 4))%Qc as Hc by reflexivity.
  set (c := Q2Qc (3 # 4)) in *. clearbody c.
  destruct (decide _) as [[H1 H2]|_]; [|apply Qcle_refl].
  apply Qc_eq_Q in Hik. clear Hv.
  assert (0 ≤ ik)%Qc as Hik0.
  { apply Qcnot_lt_le. intros Hneg. qc2q. nra. }
  assert (0 ≤ 1 - v * v)%Qc as Hv0 by (qc2q; nra).
  assert (0 ≤ c * (1 - v * v))%Qc as Hcv by (qc2q; nra).
  qc2q. nra.
Qed.

(** The kernel is positive only at the distances below the bandwidth. *)
Lemma kernel_pos u : (0 < kernelEpanechnikov k u)%Qc → (Qcabs u < k)%Qc.
Proof.
  rewrite Qcabs_lt_condition.
  destruct (kernel_cases u) as (v & ik & [Hv Hik] & ->).
  assert (0 < Q2Qc (3 # 4))%Qc as Hc0 by reflexivity.
  set (c := Q2Qc (3 # 4)) in *. clearbody c.
  apply Qc_eq_Q in Hik. subst u.
  assert (0 < ik)%Qc as Hik0.
  { apply Qcnot_le_lt. intros Hneg. qc2q. nra. }
  destruct (decide _) as [[H1 H2]|Hout];
    [|intros H; by apply Qclt_not_eq in H].
  intros Hpos.
  assert (0 < 1 - v * v)%Qc as Hv0.
  { apply Qcnot_le_lt. intros Hneg.
    assert (c * (1 - v * v) ≤ 0)%Qc as HX by (qc2q; nra).
    set (X := (c * (1 - v * v))%Qc) in *. clearbody X. qc2q. nra. }
  clear Hpos.
  assert (- (1) < v ∧ v < 1)%Qc as [Hl Hr].
  { split; apply Qcnot_le_lt; intros Hn.
    - assert (v = - (1))%Qc as -> by (by apply Qcle_antisym).
      vm_compute in Hv0. discriminate Hv0.
    - assert (v = 1)%Qc as -> by (by apply Qcle_antisym).
      vm_compute in Hv0. discriminate Hv0. }
  qc2q. split; nra.
Qed.

End kernel.

(** *** Sums and means of values that are not negative *)

Section sums.
Context {A : Type} (f : A → Qc).

Lemma sum_nonneg V :
  Forall (λ v, 0 ≤ f v)%Qc V → (0 ≤ foldr Qcplus 0 (f <$> V))%Qc.
Proof.
  induction 1 as [|v V Hv _ IH]; [apply Qcle_refl|].
  rewrite fmap_cons. cbn [foldr]. qc2q. lra.
Qed.

Lemma sum_pos V :
  Forall (λ v, 0 ≤ f v)%Qc V →
  (0 < foldr Qcplus 0 (f <$> V))%Qc → Exists (λ v, 0 < f v)%Qc V.
Proof.
  induction 1 as [|v V Hv HV IH].
  - intros H. by apply Qclt_not_eq in H.
  - rewrite fmap_cons, Exists_cons. cbn [foldr]. intros Hpos.
    destruct (Qclt_le_dec 0 (f v)) as [?|Hle]; [by left|right].
    apply IH. qc2q. lra.
Qed.

(** The mean of values that are not negative. *)
Lemma mean_nonneg V :
  V ≠ [] → Forall (λ v, 0 ≤ f v)%Qc V →
  ∃ y, mean V f = Some y ∧ (0 ≤ y)%Qc ∧
       ((0 < y)%Qc → Exists (λ v, 0 < f v)%Qc V).
Proof.
  intros Hne HV. rewrite mean_nonempty by done.
  eexists; split; [done|].
  assert (0 < ofNat (length V))%Qc as Hn.
  { apply ofNat_pos. destruct V; [done|cbn; lia]. }
  pose proof (sum_nonneg V HV) as Hs0. pose proof (sum_pos V HV) as Hs1.
  set (s := foldr Qcplus 0%Qc (f <$> V)) in *.
  set (n := ofNat (length V)) in *. clearbody s n.
  assert (s / n * n = s)%Qc as Hq by (field; by apply Qclt_neq_0).
  set (q := (s / n)%Qc) in *. clearbody q. subst s. split.
  - apply Qcnot_lt_le. intros Hneg. qc2q. nra.
  - intros Hpos. apply Hs1. qc2q. nra.
Qed.

End sums.

(** *** The density at the query points *)

(** The estimate of the chart at the query points, for a sample that is not
    empty. *)
Lemma kde_density k X V :
  V ≠ [] →
  kernelDensityEstimator (kernelEpanechnikov k) X V
  = (λ x, (x, Some (specDensity V epanechnikov k x))) <$> X.
Proof.
  intros Hne. unfold kernelDensityEstimator, specDensity.
  apply list_fmap_ext. intros _ x _. rewrite mean_nonempty by done.
  do 4 f_equal. apply list_fmap_ext. intros _ v _.
  apply kernelEpanechnikov_scaled.
Qed.

Lemma density_local k V x :
  V ≠ [] → (0 < k)%Qc →
  ∃ y, mean V (λ v, kernelEpanechnikov k (x - v)) = Some y ∧ (0 ≤ y)%Qc ∧
       ((0 < y)%Qc → Exists (λ v, Qcabs (x - v) < k)%Qc V).
Proof.
  intros Hne Hk.
  destruct (mean_nonneg (λ v, kernelEpanechnikov k (x - v)) V Hne)
    as (y & Hy & Hy0 & Hpos).
  { apply Forall_forall. intros v _. by apply kernel_nonneg. }
  exists y. split; [done|]. split; [done|]. intros Hy1.
  eapply Exists_impl; [exact (Hpos Hy1)|]. intros v. by apply kernel_pos.
Qed.

(** The density at a query point is a number that is not negative, and a
    sample value adds to it only within the bandwidth: where the density is
    positive some sample value is closer to the point than the bandwidth,
    and where every sample value is at the distance of the bandwidth or
    farther the density is 0. *)
Theorem density_vanishes_away_from_the_sample k X V :
  V ≠ [] → (0 < k)%Qc →
  Forall (λ p, ∃ y, p.2 = Some y ∧ (0 ≤ y)%Qc ∧
                    ((0 < y)%Qc → Exists (λ v, Qcabs (p.1 - v) < k)%Qc V) ∧
                    (Forall (λ v, k ≤ Qcabs (p.1 - v))%Qc V → y = 0%Qc))
    (kernelDensityEstimator (kernelEpanechnikov k) X V).
Proof.
  intros Hne Hk. unfold kernelDensityEstimator.
  apply Forall_fmap, Forall_forall. intros x _. cbn [fst snd].
  destruct (density_local k V x Hne Hk) as (y & Hy & Hy0 & Hpos).
  exists y. split; [done|]. split; [done|]. split; [done|].
  intros Hfar. destruct (Qcle_lt_or_eq _ _ Hy0) as [Hlt|Heq]; [|done].
  apply Hpos, Exists_exists in Hlt as (v & Hv & Hnear).
  rewrite Forall_forall in Hfar. exfalso.
  exact (Qclt_not_le _ _ Hnear (Hfar v Hv)).
Qed.

(** The totals 500, 500 and 510 at the ticks 490 and 470; the second is
    30 or more away from every total. *)
Lemma density_vanishes_away_from_the_sample_witness :
  Forall (λ p, ∃ y, p.2 = Some y ∧ (0 ≤ y)%Qc ∧
                    ((0 < y)%Qc
                     → Exists (λ v, Qcabs (p.1 - v) < num 20)%Qc sampleTotals) ∧
                    (Forall (λ v, num 20 ≤ Qcabs (p.1 - v))%Qc sampleTotals
                     → y = 0%Qc))
    (kernelDensityEstimator (kernelEpanechnikov (num 20)) [num 490; num 470]
       sampleTotals).
Proof.
  apply (density_vanishes_away_from_the_sample (num 20) [num 490; num 470]
           sampleTotals); [discriminate|reflexivity].
Defined.

(** *** The largest density *)

Section max.

Let step (m : option Qc) (p : Qc * option Qc) : option Qc :=
  match p.2, m with
  | Some y, Some z => if decide (z < y)%Qc then Some y else Some z
  | Some y, None => Some y
  | None, _ => m
  end.

Lemma maxOf_from l z :
  ∃ m, fold_left step l (Some z) = Some m ∧ (z ≤ m)%Qc ∧
       Forall (λ p, ∀ y, p.2 = Some y → (y ≤ m)%Qc) l ∧
       (m = z ∨ ∃ p, p ∈ l ∧ p.2 = Some m).
Proof.
  revert z. induction l as [|[x [y|]] l IH]; intros z.
  - exists z. split; [done|]. split; [apply Qcle_refl|]. split; [done|by left].
  - cbn [fold_left]. unfold step at 2. cbn [snd].
    destruct (decide (z < y)%Qc) as [Hlt|Hge].
    + destruct (IH y) as (m & -> & Hm & Hall & Hin). exists m.
      split; [done|]. split.
      { eapply Qcle_trans; [by apply Qclt_le_weak|done]. }
      split; [constructor; [by intros ? [= <-]|done]|].
      right. destruct Hin as [->|(p & Hp & Hpm)].
      * exists (x, Some y). split; [left|done].
      * exists p. split; [by right|done].
    + apply Qcnot_lt_le in Hge.
      destruct (IH z) as (m & -> & Hm & Hall & Hin). exists m.
      split; [done|]. split; [done|]. split.
      { constructor; [|done]. intros ? [= <-]. by eapply Qcle_trans. }
      destruct Hin as [->|(p & Hp & Hpm)]; [by left|].
      right. exists p. split; [by right|done].
  - cbn [fold_left]. unfold step at 2. cbn [snd].
    destruct (IH z) as (m & -> & Hm & Hall & Hin). exists m.
    split; [done|]. split; [done|]. split; [by constructor|].
    destruct Hin as [->|(p & Hp & Hpm)]; [by left|].
    right. exists p. split; [by right|done].
Qed.

(** [d3.max] is [undefined] when no value is a number; else it is one of
    the values, and none is larger. *)
Lemma maxOf_spec l :
  match maxOf l with
  | None => Forall (λ p, p.2 = None) l
  | Some m => Forall (λ p, ∀ y, p.2 = Some y → (y ≤ m)%Qc) l
              ∧ ∃ p, p ∈ l ∧ p.2 = Some m
  end.
Proof.
  unfold maxOf. change (fold_left _ l None) with (fold_left step l None).
  induction l as [|[x [y|]] l IH]; [by constructor| |].
  - cbn [fold_left]. unfold step at 2. cbn [snd].
    destruct (maxOf_from l y) as (m & -> & Hm & Hall & Hin). split.
    + constructor; [by intros ? [= <-]|done].
    + destruct Hin as [->|(p & Hp & Hpm)].
      * exists (x, Some y). split; [left|done].
      * exists p. split; [by right|done].
  - cbn [fold_left]. unfold step at 2. cbn [snd].
    destruct (fold_left step l None) as [m|].
    + destruct IH as [Hall (p & Hp & Hpm)]. split; [by constructor|].
      exists p. split; [by right|done].
    + by constructor.
Qed.

End max.

Lemma numericPoints_fmap (g : Qc → Qc) X :
  numericPoints ((λ x, (x, Some (g x))) <$> X) = (λ x, (x, g x)) <$> X.
Proof.
  unfold numericPoints. induction X as [|x X IH]; [done|].
  rewrite !fmap_cons. cbn. by f_equal.
Qed.

(** *** The ridges *)

(** What the function passed to [.each] does for one generation: it adds
    the ridge, which takes two totals or more and a tick closer than the
    bandwidth to one of them, or it adds one of the two warnings. *)
Lemma drawRidge_cases X key V out :
  (drawRidge (kde X) key V out
   = (Output (console out)
        (ridges out
         ++ [(key, (λ x, (x, specDensity V epanechnikov (num 20) x)) <$> X)]),
      Returned)
   ∧ 2 ≤ length V
   ∧ Exists (λ x, Exists (λ v, Qcabs (x - v) < num 20)%Qc V) X)
  ∨ (∃ w, drawRidge (kde X) key V out
          = (Output (console out ++ [w]) (ridges out), Returned)
          ∧ (w = fewPoints key ∨ w = noMaxDensity key)).
Proof.
  unfold drawRidge. destruct (decide (length V < 2)) as [Hfew|Hmany].
  { right. eexists. split; [done|by left]. }
  assert (V ≠ []) as Hne by (intros ->; cbn in Hmany; lia).
  assert ((0 < num 20)%Qc) as Hk by reflexivity.
  unfold kde. rewrite (kde_density _ _ _ Hne).
  set (g := specDensity V epanechnikov (num 20)).
  assert (∀ x, (0 < g x)%Qc → Exists (λ v, Qcabs (x - v) < num 20)%Qc V)
    as Hg.
  { intros x. unfold g. destruct (density_local (num 20) V x Hne Hk)
      as (y & Hy & _ & Hpos).
    pose proof (kde_density (num 20) [x] V Hne) as Hx.
    unfold kernelDensityEstimator in Hx. injection Hx as Hx.
    rewrite Hy in Hx. injection Hx as <-. done. }
  pose proof (maxOf_spec ((λ x, (x, Some (g x))) <$> X)) as Hmax.
  destruct (maxOf _) as [m|].
  - destruct Hmax as [Hall (p & Hp & Hpm)].
    apply list_elem_of_fmap in Hp as (x & -> & Hx). cbn in Hpm.
    injection Hpm as <-.
    destruct (decide (g x ≤ 0)%Qc) as [Hle|Hpos].
    + right. eexists. split; [done|by right].
    + apply Qcnot_le_lt in Hpos. left. rewrite numericPoints_fmap.
      split; [done|]. split; [lia|]. apply Exists_exists. exists x.
      split; [done|]. by apply Hg.
  - right. eexists. split; [done|by right].
Qed.

(** The calls of the function passed to [.each], for the generations it is
    called with: every call adds either one ridge or one warning and
    returns, so nothing that was put out before is lost and no generation
    stops those after it.  The ridges come in the order of the generations.
    A generation gets a ridge only if it has two totals or more and a tick
    is closer than the bandwidth 20 to one of its totals; the ridge has one
    point for every tick, with the density there. *)
Theorem each_generation_a_ridge_or_a_warning X gens out :
  ∃ drawn ws,
    drawRidges (kde X) gens out
    = (Output (console out ++ ws)
         (ridges out
          ++ ((λ d, (d.1, (λ x, (x, specDensity d.2 epanechnikov (num 20) x))
                          <$> X))
              <$> drawn)),
       Returned) ∧
    drawn `sublist_of` gens ∧
    length ws + length drawn = length gens ∧
    Forall (λ d, 2 ≤ length d.2
                 ∧ Exists (λ x, Exists (λ v, Qcabs (x - v) < num 20)%Qc d.2) X)
      drawn ∧
    Forall (λ w, ∃ d, d ∈ gens ∧ (w = fewPoints d.1 ∨ w = noMaxDensity d.1))
      ws.
Proof.
  revert out. induction gens as [|[key V] gens IH]; intros out.
  - exists [], []. rewrite fmap_nil, !app_nil_r.
    split; [by destruct out|]. done.
  - cbn [drawRidges fst snd].
    destruct (drawRidge_cases X key V out)
      as [(-> & Hlen & Hnear)|(w & -> & Hw)].
    + destruct (IH (Output (console out)
                      (ridges out
                       ++ [(key, (λ x, (x, specDensity V epanechnikov
                                             (num 20) x)) <$> X)])))
        as (drawn & ws & -> & Hsub & Hcount & Hdrawn & Hws).
      exists ((key, V) :: drawn), ws. cbn [console ridges].
      rewrite fmap_cons. cbn [fst snd]. rewrite <- app_assoc.
      split; [done|]. split; [by apply sublist_skip|].
      split; [cbn [length]; lia|]. split; [by constructor|].
      eapply Forall_impl; [exact Hws|]. intros w (d & Hd & Hw).
      exists d. split; [by right|done].
    + destruct (IH (Output (console out ++ [w]) (ridges out)))
        as (drawn & ws & -> & Hsub & Hcount & Hdrawn & Hws).
      exists drawn, (w :: ws). cbn [console ridges]. rewrite <- app_assoc.
      split; [done|]. split; [by apply sublist_cons|].
      split; [cbn [length]; lia|]. split; [done|]. constructor.
      * exists (key, V). split; [left|done].
      * eapply Forall_impl; [exact Hws|]. intros w' (d & Hd & Hw').
        exists d. split; [by right|done].
Qed.

End RidgelineBounds.

(** ** Sorting with a comparison that orders the elements, and filters *)
Module SortFacts.
Import JS JSFacts.

Section sorted.
Context {A : Type} (cmp : A → A → Z).
Hypothesis cmp_total : ∀ a b, (0 < cmp a b → cmp b a ≤ 0)%Z.
Hypothesis cmp_trans : ∀ a b c, (cmp a b ≤ 0 → cmp b c ≤ 0 → cmp a c ≤ 0)%Z.

Lemma sortInsert_sorted x s :
  StronglySorted (λ a b, cmp a b ≤ 0)%Z s →
  StronglySorted (λ a b, cmp a b ≤ 0)%Z (sortInsert cmp x s).
Proof.
  induction 1 as [|y s Hs IH Hy]; cbn [sortInsert]; [by repeat constructor|].
  destruct (Z.leb_spec (cmp x y) 0) as [Hle|Hgt].
  - constructor; [by constructor|]. constructor; [done|].
    eapply Forall_impl; [exact Hy|]. intros z Hz. by eapply cmp_trans.
  - constructor; [done|]. rewrite sortInsert_Permutation.
    constructor; [by apply cmp_total|done].
Qed.

Lemma sort_sorted l : StronglySorted (λ a b, cmp a b ≤ 0)%Z (sort cmp l).
Proof.
  induction l as [|x l IH]; cbn [sort]; [constructor|].
  by apply sortInsert_sorted.
Qed.
End sorted.

(** Filters that agree on the elements of the list. *)
Lemma filter_ext_in {A} (P Q : A → Prop) `{∀ x, Decision (P x)}
    `{∀ x, Decision (Q x)} (l : list A) :
  (∀ x, x ∈ l → P x ↔ Q x) → filter P l = filter Q l.
Proof.
  induction l as [|x l IH]; intros Hl; [done|].
  rewrite !filter_cons, IH by (intros y Hy; apply Hl; by right).
  pose proof (Hl x (list_elem_of_here _ _)).
  destruct (decide (P x)), (decide (Q x)); tauto.
Qed.

End SortFacts.

(** ** The order of the secondary types, the bars and the legend *)
Module StackedBarLayout.
Import ListFacts JS JSFacts SortFacts StackedBar StackedBarFacts.

(** *** The secondary types *)

Section secondary.
Variable lc : string → string → Z.
Hypothesis lc_total : ∀ a b, (0 < lc a b → lc b a ≤ 0)%Z.
Hypothesis lc_trans : ∀ a b c, (lc a b ≤ 0 → lc b c ≤ 0 → lc a c ≤ 0)%Z.

Lemma secondaryCmp_le a b :
  (secondaryCmp lc a b ≤ 0)%Z ↔ a = "None" ∨ (b ≠ "None" ∧ (lc a b ≤ 0)%Z).
Proof.
  unfold secondaryCmp.
  destruct (decide (a = "None")); [split; [by left|lia]|].
  destruct (decide (b = "None")); [split; [lia|naive_solver]|].
  naive_solver.
Qed.

Lemma secondaryTypes_sorted data :
  StronglySorted (λ a b, secondaryCmp lc a b ≤ 0)%Z (secondaryTypes lc data).
Proof.
  apply sort_sorted.
  - intros a b Hab. apply secondaryCmp_le.
    destruct (decide (b = "None")) as [|Hb]; [by left|right].
    unfold secondaryCmp in Hab.
    destruct (decide (a = "None")); [lia|].
    destruct (decide (b = "None")); [done|]. split; [done|].
    by apply lc_total.
  - intros a b c. rewrite !secondaryCmp_le.
    intros [?|[Hb Hab]] [?|[Hc Hbc]]; [by left|by left|done|].
    right. split; [done|]. by eapply lc_trans.
Qed.

End secondary.

(** When the comparison of the locale orders the names, "None" is first
    among the secondary types if a record has it, and the other secondary
    types follow in the order of the locale. *)
Theorem none_first_then_locale_order lc data :
  (∀ a b, (0 < lc a b → lc b a ≤ 0)%Z) →
  (∀ a b c, (lc a b ≤ 0 → lc b c ≤ 0 → lc a c ≤ 0)%Z) →
  ∃ others,
    secondaryTypes lc data
    = (if decide ("None" ∈ Type_2 <$> data) then ["None"] else []) ++ others ∧
    ("None" ∉ others) ∧
    StronglySorted (λ a b, lc a b ≤ 0)%Z others ∧
    others ≡ₚ filter (λ s, s ≠ "None") (firstSeen (Type_2 <$> data)).
Proof.
  intros Htotal Htrans.
  pose proof (secondaryTypes_sorted lc Htotal Htrans data) as Hsorted.
  pose proof (NoDup_secondaryTypes lc data) as Hnodup.
  pose proof (elem_of_secondaryTypes lc data "None") as Hnone.
  pose proof (secondaryTypes_Permutation lc data) as Hperm.
  assert (∀ l, "None" ∉ l →
            StronglySorted (λ a b, secondaryCmp lc a b ≤ 0)%Z l →
            StronglySorted (λ a b, lc a b ≤ 0)%Z l) as Hplain.
  { intros l Hl Hs. induction Hs as [|x l Hs IH Hx]; [constructor|].
    apply not_elem_of_cons in Hl as [Hx0 Hl]. constructor; [by apply IH|].
    eapply Forall_impl; [exact Hx|]. intros y Hy.
    apply secondaryCmp_le in Hy as [?|[_ ?]]; done. }
  assert (∀ l : list string, "None" ∉ l → filter (λ s, s ≠ "None") l = l)
    as Hfilter.
  { intros l Hl. apply filter_all, Forall_forall. by intros s Hs ->. }
  destruct (decide ("None" ∈ Type_2 <$> data)) as [Hin|Hout].
  - apply Hnone in Hin.
    destruct (secondaryTypes lc data) as [|x others]; [by apply elem_of_nil in Hin|].
    apply StronglySorted_inv in Hsorted as [Hs Hx].
    apply NoDup_cons in Hnodup as [Hx0 Hnd].
    assert (x = "None") as ->.
    { apply elem_of_cons in Hin as [|Hin]; [done|].
      rewrite Forall_forall in Hx. specialize (Hx _ Hin).
      apply secondaryCmp_le in Hx as [?|[? _]]; done. }
    exists others. split; [done|]. split; [done|]. split; [by apply Hplain|].
    rewrite <- Hperm, filter_cons, decide_False by naive_solver.
    by rewrite Hfilter.
  - exists (secondaryTypes lc data).
    assert ("None" ∉ secondaryTypes lc data) as Hn by (by rewrite Hnone).
    split; [done|]. split; [done|]. split; [by apply Hplain|].
    by rewrite <- Hperm, Hfilter.
Qed.

Lemma codeUnitCompare_le a b :
  (codeUnitCompare a b ≤ 0)%Z ↔ String.compare a b ≠ Gt.
Proof. unfold codeUnitCompare. destruct (String.compare a b); split; done. Qed.

Lemma codeUnitCompare_total a b :
  (0 < codeUnitCompare a b → codeUnitCompare b a ≤ 0)%Z.
Proof.
  unfold codeUnitCompare. rewrite (String.compare_antisym b a).
  destruct (String.compare a b); simpl; lia.
Qed.

Lemma codeUnitCompare_trans a b c :
  (codeUnitCompare a b ≤ 0 → codeUnitCompare b c ≤ 0 →
   codeUnitCompare a c ≤ 0)%Z.
Proof.
  rewrite !codeUnitCompare_le. intros Hab Hbc.
  destruct (String.compare a b) eqn:Eab; [| |done].
  - by apply String.compare_eq_iff in Eab as ->.
  - destruct (String.compare b c) eqn:Ebc; [| |done].
    + apply String.compare_eq_iff in Ebc as <-. by rewrite Eab.
    + pose proof (StrictOrder_Transitive (R := String_as_OT.lt)) as Htr.
      pose proof (Htr a b c Eab Ebc) as Hac.
      change (String.compare a c = Lt) in Hac. by rewrite Hac.
Qed.

Lemma none_first_then_locale_order_witness :
  ∃ others,
    secondaryTypes codeUnitCompare fireFireWater
    = (if decide ("None" ∈ Type_2 <$> fireFireWater) then ["None"] else [])
      ++ others ∧
    ("None" ∉ others) ∧
    StronglySorted (λ a b, codeUnitCompare a b ≤ 0)%Z others ∧
    others ≡ₚ filter (λ s, s ≠ "None") (firstSeen (Type_2 <$> fireFireWater)).
Proof.
  apply (none_first_then_locale_order codeUnitCompare fireFireWater).
  - exact codeUnitCompare_total.
  - exact codeUnitCompare_trans.
Defined.

(** *** The stack layout *)

Lemma offsetOnto_fmap (a b : gmap string jsval → nat) key data :
  offsetOnto ((λ d, Segment (a d) (b d) d) <$> data) (stackSeries key data)
  = (λ d, Segment (b d) (subCount d key + b d) d) <$> data.
Proof.
  unfold offsetOnto, stackSeries. induction data as [|d data IH]; [done|].
  rewrite !fmap_cons. cbn [zip_with seg0 seg1 segData]. by rewrite IH.
Qed.

Lemma offsetNone_closed (a b : gmap string jsval → nat) keys data :
  offsetNone ((λ d, Segment (a d) (b d) d) <$> data)
    ((λ key, (key, stackSeries key data)) <$> keys)
  = imap (λ i key,
      (key, (λ d, Segment (b d + sum_list_with (subCount d) (take i keys))
                    (b d + sum_list_with (subCount d) (take (S i) keys)) d)
            <$> data)) keys.
Proof.
  revert a b. induction keys as [|key keys IH]; intros a b; [done|].
  rewrite fmap_cons. cbn [offsetNone]. rewrite offsetOnto_fmap, IH.
  rewrite imap_cons. f_equal.
  - f_equal. apply list_fmap_ext. intros _ d _.
    rewrite ?firstn_cons, ?take_0; cbn [sum_list_with]. f_equal; lia.
  - apply imap_ext. intros i k _. unfold compose. f_equal.
    apply list_fmap_ext. intros _ d _.
    rewrite ?firstn_cons, ?take_0; cbn [sum_list_with]. f_equal; lia.
Qed.

(** The layout in closed form: the segment of the key [i] runs from the
    sum of the values under the keys before it to that sum plus its own
    value. *)
Lemma stack_closed keys data :
  stack keys data
  = imap (λ i key,
      (key, (λ d, Segment (sum_list_with (subCount d) (take i keys))
                    (sum_list_with (subCount d) (take (S i) keys)) d)
            <$> data)) keys.
Proof.
  unfold stack. destruct keys as [|key keys]; [done|].
  rewrite fmap_cons. cbv beta iota.
  pose proof (offsetNone_closed (λ _, 0) (λ d, subCount d key) keys data)
    as Hrest.
  cbv beta in Hrest. unfold stackSeries at 2.
  rewrite Hrest, imap_cons. unfold stackSeries. f_equal.
  f_equal. apply list_fmap_ext. intros _ d _.
  rewrite ?firstn_cons, ?take_0; cbn [sum_list_with]. f_equal. lia.
Qed.


(** The counts under several keys add up to the number of the elements
    that have one of them. *)
Lemma sum_filter_some {A} (key : A → string) (data : list A) keys :
  NoDup keys →
  sum_list_with (λ k, length (filter (λ d, key d = k) data)) keys
  = length (filter (λ d, key d ∈ keys) data).
Proof.
  intros Hnd.
  rewrite <- (sum_filter_keys key (filter (λ d, key d ∈ keys) data) keys Hnd).
  - apply sum_list_with_ext_in. intros k Hk.
    rewrite list_filter_filter. f_equal. apply list_filter_iff.
    intros d. naive_solver.
  - by intros d [? _]%list_elem_of_filter.
Qed.

Section bars.
Variables (lc : string → string → Z) (data : list pokemon).
Hypothesis total_free : "total" ∉ Type_2 <$> data.

(** The values of a group under some of the secondary types add up to the
    number of its records that have one of them. *)
Lemma sum_subCount k keys :
  NoDup keys → keys ⊆ secondaryTypes lc data →
  sum_list_with (subCount (toObject (k, countsOf lc data k))) keys
  = length (filter (λ d, Type_1 d = k ∧ Type_2 d ∈ keys) data).
Proof.
  intros Hnd Hsub.
  rewrite (sum_list_with_ext_in _
    (λ s, length (filter (λ d, Type_2 d = s)
                    (filter (λ d, Type_1 d = k) data)))).
  - rewrite sum_filter_some by done. rewrite list_filter_filter.
    f_equal. apply list_filter_iff. intros d. naive_solver.
  - intros s Hs. unfold subCount, countsOf.
    rewrite toObject_lookup, countLeaves_lookup.
    destruct (decide (s = "total")) as [->|_].
    { exfalso. apply total_free, (elem_of_secondaryTypes lc). by apply Hsub. }
    rewrite decide_True by (by apply Hsub). done.
Qed.

Lemma take_secondaryTypes i :
  NoDup (take i (secondaryTypes lc data))
  ∧ take i (secondaryTypes lc data) ⊆ secondaryTypes lc data.
Proof.
  split.
  - eapply sublist_NoDup; [apply NoDup_secondaryTypes|apply sublist_take].
  - apply subseteq_take.
Qed.

End bars.

(** When no record has the secondary type "total", the segment of a
    primary type in the layer of a secondary type runs from the number of
    the records of the primary type that have one of the secondary types
    before it, to that number plus the records that have the secondary type
    itself: the segments of a bar follow one another from 0 in the order of
    the secondary types.  No segment ends beyond the total of its bar, and
    the segments of the last layer end there. *)
Theorem segments_are_running_counts lc data :
  "total" ∉ Type_2 <$> data →
  stack (secondaryTypes lc data) (sortedCountsArray lc data)
  = imap (λ i s,
      (s, (λ e : string * gmap string nat,
             Segment
               (length (filter (λ d, Type_1 d = e.1 ∧
                          Type_2 d ∈ take i (secondaryTypes lc data)) data))
               (length (filter (λ d, Type_1 d = e.1 ∧
                          Type_2 d ∈ take (S i) (secondaryTypes lc data)) data))
               (toObject e))
          <$> sortedEntries lc data))
      (secondaryTypes lc data) ∧
  Forall (λ layer,
            Forall (λ sg, seg0 sg ≤ seg1 sg ∧ seg1 sg ≤ total (segData sg))
              layer.2)
    (stack (secondaryTypes lc data) (sortedCountsArray lc data)) ∧
  (snd <$> last (stack (secondaryTypes lc data) (sortedCountsArray lc data)))
  = (λ s, (λ g, Segment (total g - subCount g s) (total g) g)
          <$> sortedCountsArray lc data)
    <$> last (secondaryTypes lc data).
Proof.
  intros Hfree.
  assert (∀ e i, e ∈ sortedEntries lc data →
            sum_list_with (subCount (toObject e))
              (take i (secondaryTypes lc data))
            = length (filter (λ d, Type_1 d = e.1 ∧
                        Type_2 d ∈ take i (secondaryTypes lc data)) data))
    as Hsum.
  { intros e i (k & Hk & ->)%elem_of_sortedEntries.
    destruct (take_secondaryTypes lc data i) as [Hnd Hsub].
    by apply sum_subCount. }
  assert (∀ e, e ∈ sortedEntries lc data →
            sum_list_with (subCount (toObject e)) (secondaryTypes lc data)
            = total (toObject e)) as Hall.
  { intros e He. rewrite <- (take_ge (secondaryTypes lc data)
                              (length (secondaryTypes lc data))) at 1 by lia.
    rewrite (Hsum e _ He), take_ge by lia.
    apply elem_of_sortedEntries in He as (k & Hk & ->).
    rewrite total_toObject, countsOf_total. cbn [fst]. f_equal.
    apply filter_ext_in. intros d Hd. split; [by intros [? _]|].
    intros Hk1. split; [done|].
    apply elem_of_secondaryTypes. by apply list_elem_of_fmap_2. }
  assert (∀ e i, e ∈ sortedEntries lc data →
            sum_list_with (subCount (toObject e))
              (take i (secondaryTypes lc data)) ≤ total (toObject e)) as Hle.
  { intros e i He. rewrite <- (Hall e He).
    rewrite <- (take_drop i (secondaryTypes lc data)) at 2.
    rewrite sum_list_with_app. lia. }
  rewrite stack_closed. unfold sortedCountsArray. split; [|split].
  - apply imap_ext. intros i s _. f_equal. rewrite <- list_fmap_compose.
    apply list_fmap_ext. intros j e He. apply list_elem_of_lookup_2 in He.
    unfold compose. by rewrite !Hsum.
  - apply Forall_forall. intros layer Hlayer.
    apply elem_of_lookup_imap_1 in Hlayer as (i & s & -> & Hs).
    cbn [snd]. rewrite <- list_fmap_compose. apply Forall_fmap, Forall_forall.
    intros e He. unfold compose. cbn [seg0 seg1 segData]. split.
    + destruct (secondaryTypes lc data !! i) as [s'|] eqn:Hi; [|done].
      rewrite (take_S_r _ _ _ Hi), sum_list_with_app. lia.
    + by apply Hle.
  - destruct (secondaryTypes lc data) as [|s0 secT _] eqn:Hsec
      using rev_ind; [done|].
    rewrite imap_app. cbn [imap]. rewrite !last_snoc.
    cbn [fmap option_fmap option_map snd].
    f_equal. rewrite <- !list_fmap_compose. apply list_fmap_ext.
    intros j e He. apply list_elem_of_lookup_2 in He. unfold compose.
    rewrite Nat.add_0_r.
    rewrite (take_ge (secT ++ [s0]) (S (length secT)))
      by (rewrite length_app; cbn; lia).
    rewrite take_app_length, (Hall e He). f_equal.
    rewrite <- (Hall e He), sum_list_with_app. cbn [sum_list_with]. lia.
Qed.

Lemma segments_are_running_counts_witness :
  Forall (λ layer,
            Forall (λ sg, seg0 sg ≤ seg1 sg ∧ seg1 sg ≤ total (segData sg))
              layer.2)
    (stack (secondaryTypes codeUnitCompare fireFireWater)
       (sortedCountsArray codeUnitCompare fireFireWater)).
Proof.
  apply (segments_are_running_counts codeUnitCompare fireFireWater).
  intros H. apply list_elem_of_fmap in H as (d & Hd & Hin).
  unfold fireFireWater in Hin.
  repeat (apply elem_of_cons in Hin as [->|Hin]; [discriminate Hd|]).
  by apply elem_of_nil in Hin.
Defined.

(** *** The two messages and the domain of the x scale *)

Section max_total.

Let step (m : option nat) (d : gmap string jsval) : option nat :=
  match d !! "total", m with
  | Some (Num n), Some z => if decide (z < n) then Some n else Some z
  | Some (Num n), None => Some n
  | _, _ => m
  end.



End max_total.



(** *** The legend *)

Lemma Qfloor_div_pos i d :
  (0 < d)%Z → Qfloor (inject_Z i / inject_Z d)%Q = (i / d)%Z.
Proof.
  intros Hd. destruct d as [|p|p]; [lia| |lia].
  unfold Qdiv, Qinv, Qmult, inject_Z, Qfloor. cbn.
  by rewrite Z.mul_1_r.
Qed.

Lemma itemsPerColumn_half n :
  itemsPerColumn n = ((Z.of_nat n + 1) / 2)%Z.
Proof.
  unfold itemsPerColumn, numColumns, Qceiling.
  replace (- (inject_Z (Z.of_nat n) / inject_Z 2))%Q
    with (inject_Z (- Z.of_nat n) / inject_Z 2)%Q.
  - rewrite Qfloor_div_pos by lia. Z.to_euclidean_division_equations. lia.
  - unfold Qdiv, Qinv, Qmult, Qopp, inject_Z. cbn. f_equal. lia.
Qed.

Lemma legendTranslate_column n i :
  i < n →
  legendTranslate n i
  = if decide (Z.of_nat i < (Z.of_nat n + 1) / 2)%Z
    then (0%Z, (Z.of_nat i * 15)%Z)
    else (60%Z, ((Z.of_nat i - (Z.of_nat n + 1) / 2) * 15)%Z).
Proof.
  intros Hi. unfold legendTranslate, legendItemWidth, legendItemHeight.
  rewrite itemsPerColumn_half.
  assert (0 < (Z.of_nat n + 1) / 2)%Z as Hc
    by (Z.to_euclidean_division_equations; lia).
  rewrite Qfloor_div_pos, Z.rem_mod_nonneg by lia.
  assert (Z.of_nat i < 2 * ((Z.of_nat n + 1) / 2))%Z as Hi2
    by (Z.to_euclidean_division_equations; lia).
  set (c := ((Z.of_nat n + 1) / 2)%Z) in *. clearbody c.
  destruct (decide _) as [Hlt|Hge].
  - rewrite Z.div_small, Z.mod_small by lia. done.
  - rewrite <- (Z.div_unique (Z.of_nat i) c 1 (Z.of_nat i - c)) by lia.
    rewrite <- (Z.mod_unique (Z.of_nat i) c 1 (Z.of_nat i - c)) by lia.
    done.
Qed.

(** The legend has two columns, 60 apart, with the rows 15 apart: the
    first half of the secondary types, the larger one when their number is
    odd, goes down the first column and the rest down the second.  No two
    items are put at the same place. *)
Theorem legend_fills_two_columns secTypes :
  legendItems secTypes
  = imap (λ i type,
      (type,
       if decide (Z.of_nat i < (Z.of_nat (length secTypes) + 1) / 2)%Z
       then (0%Z, (Z.of_nat i * 15)%Z)
       else (60%Z,
             ((Z.of_nat i - (Z.of_nat (length secTypes) + 1) / 2) * 15)%Z)))
      secTypes ∧
  NoDup (legendItems secTypes).*2.
Proof.
  assert (legendItems secTypes
    = imap (λ i type,
        (type,
         if decide (Z.of_nat i < (Z.of_nat (length secTypes) + 1) / 2)%Z
         then (0%Z, (Z.of_nat i * 15)%Z)
         else (60%Z,
               ((Z.of_nat i - (Z.of_nat (length secTypes) + 1) / 2) * 15)%Z)))
        secTypes) as Hclosed.
  { unfold legendItems. apply imap_ext. intros i type Hi.
    apply lookup_lt_Some in Hi. by rewrite legendTranslate_column. }
  split; [done|]. rewrite Hclosed. apply NoDup_alt. intros i j pos.
  rewrite !list_lookup_fmap, !list_lookup_imap.
  destruct (secTypes !! i) as [ti|]; [|done].
  destruct (secTypes !! j) as [tj|]; [|done].
  cbn [fmap option_fmap option_map snd]. intros [= <-].
  repeat destruct (decide _); intros [=]; lia.
Qed.

End StackedBarLayout.

(** ** The generations of the ridgeline plot *)
Module RidgelineGroups.
Import ListFacts JS JSFacts SortFacts StackedBarFacts Ridgeline.

Lemma ascending_le a b : (ascending a b ≤ 0)%Z ↔ (a ≤ b)%Qc.
Proof.
  unfold ascending. destruct (decide (a < b)%Qc) as [Hlt|Hge].
  - split; [intros _; by apply Qclt_le_weak|lia].
  - apply Qcnot_lt_le in Hge. destruct (decide (b < a)%Qc) as [Hlt|Hle].
    + split; [lia|]. intros Hab. by apply Qcle_not_lt in Hab.
    + split; [|lia]. intros _. by apply Qcnot_lt_le.
Qed.

Lemma sort_ascending l : StronglySorted Qcle (sort ascending l).
Proof.
  assert (StronglySorted (λ a b, ascending a b ≤ 0)%Z (sort ascending l))
    as Hsorted.
  { apply (sort_sorted ascending).
    - intros a b Hab. apply ascending_le.
      destruct (Qclt_le_dec a b) as [Hlt|Hle]; [|done].
      apply Qclt_le_weak in Hlt. apply ascending_le in Hlt. lia.
    - intros a b c. rewrite !ascending_le. apply Qcle_trans. }
  induction Hsorted as [|x s Hs IH Hx]; constructor; [done|].
  eapply Forall_impl; [exact Hx|]. intros y. apply ascending_le.
Qed.

Lemma sorted_NoDup_strict (l : list Qc) :
  StronglySorted Qcle l → NoDup l → StronglySorted Qclt l.
Proof.
  induction 1 as [|x l Hs IH Hx]; intros Hnd; [constructor|].
  apply NoDup_cons in Hnd as [Hx0 Hnd]. constructor; [by apply IH|].
  apply Forall_forall. intros y Hy. rewrite Forall_forall in Hx.
  destruct (Qcle_lt_or_eq _ _ (Hx y Hy)) as [Hlt|Heq]; [done|].
  by subst y.
Qed.

Lemma NoDup_omap_id {A} (l : list (option A)) : NoDup l → NoDup (omap id l).
Proof.
  induction 1 as [|[x|] l Hx Hnd IH]; cbn; [constructor| |done].
  constructor; [|done]. intros Hin. apply Hx.
  apply list_elem_of_omap in Hin as ([y|] & Hy & [= ->]). done.
Qed.

Lemma mapGet_fmap {V} (f : string → V) key keys :
  mapGet key ((λ k, (k, f k)) <$> keys)
  = if decide (key ∈ keys) then Some (f key) else None.
Proof.
  induction keys as [|k keys IH]; [done|].
  rewrite fmap_cons. cbn [mapGet]. destruct (decide (k = key)) as [->|Hne].
  - rewrite decide_True; [done|left].
  - rewrite IH. destruct (decide (key ∈ keys)) as [Hin|Hout].
    + rewrite decide_True; [done|by right].
    + rewrite decide_False; [done|]. by intros [?|?]%elem_of_cons.
Qed.

Section groups.
Variables (StringOf : Qc → string) (data : list pokemon).
Hypothesis StringOf_inj :
  ∀ a b, Some a ∈ Generation <$> data → Some b ∈ Generation <$> data →
    StringOf a = StringOf b → a = b.

(** The numbers among the generations of the data, in ascending order. *)
Let numbers : list Qc :=
  sort ascending (omap id (setFrom (Generation <$> data))).

Lemma elem_of_numbers g : g ∈ numbers ↔ Some g ∈ Generation <$> data.
Proof.
  unfold numbers. rewrite sort_Permutation, list_elem_of_omap. split.
  - intros (x & Hx & Hid). cbn in Hid. subst x.
    exact (proj1 (elem_of_setFrom _ _) Hx).
  - intros Hg. exists (Some g). split; [by apply elem_of_setFrom|done].
Qed.

Lemma numbers_ascending : StronglySorted Qclt numbers.
Proof.
  apply sorted_NoDup_strict; [apply sort_ascending|].
  unfold numbers. rewrite sort_Permutation.
  apply NoDup_omap_id, NoDup_setFrom.
Qed.

(** The records the Map holds under the key of a generation of the data. *)
Lemma dataByGen_get g :
  g ∈ numbers →
  default [] (mapGet (StringOf g) (dataByGen StringOf data))
  = filter (λ d, Generation d = Some g ∧ is_Some (Total d)) data.
Proof.
  intros Hg. apply elem_of_numbers in Hg.
  unfold dataByGen. rewrite group_entries.
  set (valid := filter (λ d, is_Some (Total d) ∧ is_Some (Generation d)) data).
  rewrite (mapGet_fmap (λ k, filter (λ d, genKey StringOf d = k) valid)).
  assert (filter (λ d, genKey StringOf d = StringOf g) valid
          = filter (λ d, Generation d = Some g ∧ is_Some (Total d)) data)
    as Hsame.
  { unfold valid. rewrite list_filter_filter.
    apply filter_ext_in. intros d Hd. unfold genKey. split.
    - intros (Hk & Ht & [g' Hg']). rewrite Hg' in Hk. split; [|done].
      rewrite Hg'. f_equal. apply StringOf_inj; [|done..].
      rewrite <- Hg'. by apply list_elem_of_fmap_2.
    - intros [-> Ht]. split; [done|]. split; [done|]. by eexists. }
  destruct (decide _) as [Hin|Hout]; [done|]. cbn [default].
  rewrite <- Hsame. symmetry. apply filter_none, Forall_forall.
  intros d Hd Hk. apply Hout. apply elem_of_setFrom. rewrite <- Hk.
  by apply list_elem_of_fmap_2.
Qed.

End groups.

(** [String] tells the numbers apart.  The generations that are plotted
    are then those of the records that have a total, each once and in
    ascending order of the number, whatever the order of the data; a
    generation comes with its records that have a total, in the order of the
    data.  Records without a generation or without a total are in no
    group. *)
Theorem generations_ascending_with_their_records StringOf data :
  (∀ a b, Some a ∈ Generation <$> data → Some b ∈ Generation <$> data →
     StringOf a = StringOf b → a = b) →
  ∃ gens,
    StronglySorted Qclt gens ∧
    (∀ g, g ∈ gens ↔
          ∃ d, d ∈ data ∧ Generation d = Some g ∧ is_Some (Total d)) ∧
    dataByGenArray StringOf data
    = (λ g, (StringOf g,
             filter (λ d, Generation d = Some g ∧ is_Some (Total d)) data))
      <$> gens ∧
    (λ d, (d.1, genDataTotals d.2)) <$> dataByGenArray StringOf data
    = (λ g, (StringOf g,
             omap (λ d, if decide (Generation d = Some g) then Total d
                        else None) data))
      <$> gens.
Proof.
  intros Hinj.
  set (numbers := sort ascending (omap id (setFrom (Generation <$> data)))).
  set (records := λ g,
         filter (λ d, Generation d = Some g ∧ is_Some (Total d)) data).
  exists (filter (λ g, 0 < length (records g)) numbers).
  assert (dataByGenArray StringOf data
          = (λ g, (StringOf g, records g))
            <$> filter (λ g, 0 < length (records g)) numbers) as Harray.
  { unfold dataByGenArray, generations. fold numbers.
    rewrite <- list_fmap_compose.
    rewrite (list_fmap_ext _ (λ g, (StringOf g, records g)) numbers).
    - by rewrite filter_fmap.
    - intros i g Hg. apply list_elem_of_lookup_2 in Hg. unfold compose.
      f_equal. by apply dataByGen_get. }
  split; [|split; [|split]].
  - apply StronglySorted_filter. by apply numbers_ascending.
  - intros g. rewrite list_elem_of_filter. split.
    + intros [Hlen _]. destruct (records g) as [|d l] eqn:Hr;
        [cbn in Hlen; lia|].
      assert (d ∈ records g) as Hd by (rewrite Hr; left).
      apply list_elem_of_filter in Hd as [[? ?] ?]. by exists d.
    + intros (d & Hd & Hg & Ht).
      assert (d ∈ records g) as Hin by (by apply list_elem_of_filter).
      split.
      * destruct (records g); [by apply elem_of_nil in Hin|cbn; lia].
      * apply elem_of_numbers. rewrite <- Hg. by apply list_elem_of_fmap_2.
  - exact Harray.
  - rewrite Harray, <- list_fmap_compose. apply list_fmap_ext.
    intros i g _. unfold compose. cbn [fst snd]. f_equal.
    unfold genDataTotals, records. clear.
    induction data as [|d l IH]; [done|].
    rewrite filter_cons. cbn [omap list_omap].
    destruct (decide (Generation d = Some g)) as [Hg|Hg].
    + destruct (Total d) as [t|] eqn:Ht.
      * rewrite decide_True by (split; [done|by eexists]).
        cbn [omap list_omap]. rewrite Ht. by f_equal.
      * rewrite decide_False; [done|]. intros [_ [? ?]]. done.
    + rewrite decide_False by tauto. done.
Qed.

Lemma generations_ascending_with_their_records_witness :
  ∃ gens,
    StronglySorted Qclt gens ∧
    (∀ g, g ∈ gens ↔
          ∃ d, d ∈ threeGenerations ∧ Generation d = Some g
               ∧ is_Some (Total d)) ∧
    dataByGenArray digit threeGenerations
    = (λ g, (digit g,
             filter (λ d, Generation d = Some g ∧ is_Some (Total d))
               threeGenerations))
      <$> gens ∧
    (λ d, (d.1, genDataTotals d.2)) <$> dataByGenArray digit threeGenerations
    = (λ g, (digit g,
             omap (λ d, if decide (Generation d = Some g) then Total d
                        else None) threeGenerations))
      <$> gens.
Proof.
  apply (generations_ascending_with_their_records digit threeGenerations).
  assert (∀ a, Some a ∈ Generation <$> threeGenerations →
            a = num 2 ∨ a = num 1 ∨ a = num 3) as Hgen.
  { intros a Ha. unfold threeGenerations in Ha. cbn in Ha.
    repeat (apply elem_of_cons in Ha as [Ha|Ha];
            [first [discriminate Ha|injection Ha as ->; tauto]|]).
    by apply elem_of_nil in Ha. }
  intros a b Ha Hb.
  destruct (Hgen a Ha) as [-> | [-> | ->]],
    (Hgen b Hb) as [-> | [-> | ->]];
    intros Heq; try done; vm_compute in Heq; discriminate Heq.
Defined.

End RidgelineGroups.
